(** * The tensor-expression JIT layer: engine, instance cache, unique names
      and call arguments

    A shallow embedding of the LLVM-backed JIT glue of
    [torch/csrc/jit/tensorexpr] (the [llvm_jit] translation unit and the
    [CodeGen::CallArg] cell of [codegen.h]).  Strings are [string], the
    [std::unordered_map]s are [gmap]s, the [std::unordered_set] is a [gset],
    [c10::optional] is [option], a fatal [assertSuccess] is [None]. *)

From Stdlib Require Import Strings.Ascii Strings.Byte.
From stdpp Require Import gmap strings pretty list relations.

(** ** The part of the LLVM ORC interface the source calls *)

(** A native address ([llvm::JITTargetAddress]). *)
Abbreviation addr := N.

Inductive CodeGenOptLevel := CodeGenOpt_None | CodeGenOpt_Default.
Inductive FPOpFusionMode := FPOpFusion_Standard | FPOpFusion_Fast.

(** [llvm::orc::JITTargetMachineBuilder]: the triple it was built from, the
    CPU (an empty [std::string] until [setCPU]), the feature list (empty
    until [addFeatures]) and the two options the source touches. *)
Record JITTargetMachineBuilder := mkJTMB {
  TT : string;
  CPU : string;
  Features : list string;
  OptLevel : option CodeGenOptLevel;
  AllowFPOpFusion : FPOpFusionMode
}.

(** The facts about the host and the process that the LLVM runtime and the
    rest of the repository supply to this translation unit. *)
Record Env := mkEnv {
  (** [llvm::sys::getProcessTriple()] *)
  getProcessTriple : string;
  (** [llvm::sys::getHostCPUName()] *)
  getHostCPUName : string;
  (** [llvm::sys::getHostCPUFeatures]: the feature map, in iteration order *)
  getHostCPUFeatures : list (string * bool);
  (** [llvm::SubtargetFeatures::Split] *)
  Split : string → list string;
  (** [llvm::SubtargetFeatures::AddFeature(String, Enable)] on a feature list *)
  AddFeature : list string → string → bool → list string;
  (** whether LLVM can build a target machine (and an [LLJIT]) from a builder *)
  createTargetMachine : JITTargetMachineBuilder → bool;
  (** [MangleAndInterner]: the platform's symbol mangling *)
  Mangle : string → string;
  (** the symbols of the hosting process ([DynamicLibrarySearchGenerator]) *)
  processSymbol : string → option addr;
  (** [getIntrinsicSymbols()]: the compiled-in list, in order *)
  getIntrinsicSymbols : list (string * addr);
  (** [getNNCFunctionRegistry()]: the external functions, in iteration order *)
  getNNCFunctionRegistry : list (string * addr);
  (** the address of [DispatchParallel] *)
  DispatchParallel : addr
}.

Module JTMB.
(** [JITTargetMachineBuilder(Triple)] *)
Definition create (triple : string) : JITTargetMachineBuilder :=
  mkJTMB triple "" [] None FPOpFusion_Standard.

Definition setCPU (cpu : string) (b : JITTargetMachineBuilder) :=
  mkJTMB (TT b) cpu (Features b) (OptLevel b) (AllowFPOpFusion b).

(** [addFeatures(vec)]: [Features.AddFeature(F)] for each [F], enabled. *)
Definition addFeatures (E : Env) (vec : list string)
    (b : JITTargetMachineBuilder) :=
  mkJTMB (TT b) (CPU b)
    (foldl (λ fs f, AddFeature E fs f true) (Features b) vec)
    (OptLevel b) (AllowFPOpFusion b).

Definition setCodeGenOptLevel (l : CodeGenOptLevel)
    (b : JITTargetMachineBuilder) :=
  mkJTMB (TT b) (CPU b) (Features b) (Some l) (AllowFPOpFusion b).

Definition setAllowFPOpFusion (m : FPOpFusionMode)
    (b : JITTargetMachineBuilder) :=
  mkJTMB (TT b) (CPU b) (Features b) (OptLevel b) m.
End JTMB.

(** ** Target machine configuration *)

(** [getHostSubtargetFeatures]: every host feature added with its flag. *)
Definition getHostSubtargetFeatures (E : Env) : list string :=
  foldl (λ fs kv, AddFeature E fs kv.1 kv.2) [] (getHostCPUFeatures E).

(** [makeJTMBFromHost]: the host's triple; cpu and attrs default to the
    host's unless they are supplied. *)
Definition makeJTMBFromHost (E : Env) (cpu attrs : option string)
    : JITTargetMachineBuilder :=
  let JTMB := JTMB.create (getProcessTriple E) in
  let JTMB := JTMB.setCPU (default (getHostCPUName E) cpu) JTMB in
  match attrs with
  | Some a => JTMB.addFeatures E (Split E a) JTMB
  | None => JTMB.addFeatures E (getHostSubtargetFeatures E) JTMB
  end.

(** [makeJTMBFromTriple]: the given triple; cpu and attrs are not set when
    they are not supplied. *)
Definition makeJTMBFromTriple (E : Env) (triple : string)
    (cpu attrs : option string) : JITTargetMachineBuilder :=
  let JTMB := JTMB.create triple in
  let JTMB := match cpu with Some c => JTMB.setCPU c JTMB | None => JTMB end in
  match attrs with
  | Some a => JTMB.addFeatures E (Split E a) JTMB
  | None => JTMB
  end.

Definition makeTargetMachineBuilder (E : Env)
    (triple cpu attrs : option string) : JITTargetMachineBuilder :=
  let JTMB := match triple with
              | Some t => makeJTMBFromTriple E t cpu attrs
              | None => makeJTMBFromHost E cpu attrs
              end in
  let JTMB := JTMB.setCodeGenOptLevel CodeGenOpt_Default JTMB in
  JTMB.setAllowFPOpFusion FPOpFusion_Fast JTMB.

(** ** Symbol registration *)

(** [llvm::orc::SymbolMap], keyed by the mangled name.  Its [insert] keeps
    the entry that is already there. *)
Module SymbolMap.
Definition insert (kv : string * addr) (m : gmap string addr)
    : gmap string addr :=
  match m !! kv.1 with
  | Some _ => m
  | None => <[kv.1 := kv.2]> m
  end.
End SymbolMap.

(** [llvm::orc::JITDylib]: the symbols defined in the linkage namespace. *)
Module JITDylib.
(** [JD.define(absoluteSymbols(MU))]: every symbol of [MU] becomes part of
    the dylib; a symbol the dylib already defines is a
    [DuplicateDefinition] error and nothing is added. *)
Definition define (JD MU : gmap string addr) : option (gmap string addr) :=
  if decide (JD ##ₘ MU) then Some (JD ∪ MU) else None.
End JITDylib.

(** The second loop of [registerIntrinsics]: one [define] per registry
    entry, each under [assertSuccess]. *)
Fixpoint defineEach (E : Env) (JD : gmap string addr)
    (kvs : list (string * addr)) : option (gmap string addr) :=
  match kvs with
  | [] => Some JD
  | kv :: rest =>
      JD' ← JITDylib.define JD {[ Mangle E kv.1 := kv.2 ]};
      defineEach E JD' rest
  end.

Definition registerIntrinsics (E : Env) (JD : gmap string addr)
    (intrinsics : gset string) : option (gmap string addr * gset string) :=
  let entry (name : string) (ptr : addr) := (Mangle E name, ptr) in
  let '(symbols, intrinsics) :=
    foldl (λ '(symbols, intrinsics) sym,
             (SymbolMap.insert (entry sym.1 sym.2) symbols,
              {[ sym.1 ]} ∪ intrinsics))
          (∅, intrinsics) (getIntrinsicSymbols E) in
  JD ← JITDylib.define JD symbols;
  JD ← defineEach E JD (getNNCFunctionRegistry E);
  JD ← JITDylib.define JD
         {[ Mangle E "DispatchParallel" := DispatchParallel E ]};
  Some (JD, intrinsics).

(** ** The engine *)

Module PytorchLLVMJITImpl.
(** The members: the target machine (its resolved configuration), the main
    dylib of the [LLJIT] and the set of intrinsic names. *)
Record t := mk {
  TM : JITTargetMachineBuilder;
  JD : gmap string addr;
  intrinsics : gset string
}.

(** The constructor: a fresh engine has an empty main dylib; every
    [assertSuccess] that fails ends the construction. *)
Definition create (E : Env) (triple cpu attrs : option string) : option t :=
  let JTMB := makeTargetMachineBuilder E triple cpu attrs in
  if createTargetMachine E JTMB then
    '(JD, intrinsics) ← registerIntrinsics E ∅ ∅;
    Some (mk JTMB JD intrinsics)
  else None.

(** [LLJ->lookup(Name)]: the mangled name in the main dylib, then the
    process symbols; [None] is the failed [assertSuccess]. *)
Definition findSymbol (E : Env) (this : t) (Name : string) : option addr :=
  match JD this !! Mangle E Name with
  | Some a => Some a
  | None => processSymbol E (Mangle E Name)
  end.

Definition hasSymbol (this : t) (Name : string) : bool :=
  bool_decide (Name ∈ intrinsics this).
End PytorchLLVMJITImpl.

(** ** The engine's public class, with its unique function names *)

Module PytorchLLVMJIT.
Record t := mk {
  impl_ : PytorchLLVMJITImpl.t;
  existing_functions_ : gmap string Z
}.

Definition create (E : Env) (triple cpu attrs : option string) : option t :=
  impl ← PytorchLLVMJITImpl.create E triple cpu attrs;
  Some (mk impl ∅).

Definition findSymbol (E : Env) (this : t) (Name : string) : option addr :=
  PytorchLLVMJITImpl.findSymbol E (impl_ this) Name.

Definition hasSymbol (this : t) (Name : string) : bool :=
  PytorchLLVMJITImpl.hasSymbol (impl_ this) Name.

(** [getUniqueFunctionName] reads and writes [existing_functions_] only,
    so it is stated on that member.  The mapped type is declared in the
    class header; the counter is a mathematical integer here, and
    [pretty] is [std::to_string].

    The iterator [it] designates the entry of [name] in the table itself:
    the assignment [existing_functions_[name] = it->second + 1] writes that
    entry, and the [it->second] of the next statement reads the entry again,
    after the write. *)
Definition getUniqueFunctionName (existing_functions_ : gmap string Z)
    (name : string) : string * gmap string Z :=
  match existing_functions_ !! name with
  | None => (name, <[name := 0%Z]> existing_functions_)
  | Some second =>
      let existing_functions_ :=
        <[name := (second + 1)%Z]> existing_functions_ in
      let it_second := default second (existing_functions_ !! name) in
      let unique_name := (name +:+ "_") +:+ pretty (it_second + 1)%Z in
      (unique_name, existing_functions_)
  end.

(** The method on the engine it is called on. *)
Definition getUniqueFunctionName_on (this : t) (name : string) : string * t :=
  let '(unique_name, m) :=
    getUniqueFunctionName (existing_functions_ this) name in
  (unique_name, mk (impl_ this) m).

(** A sequence of calls on one engine, in the order the lock serialises
    them: the names returned and the final table. *)
Fixpoint calls (existing_functions_ : gmap string Z) (names : list string)
    : list string * gmap string Z :=
  match names with
  | [] => ([], existing_functions_)
  | name :: rest =>
      let '(r, m) := getUniqueFunctionName existing_functions_ name in
      let '(rs, m') := calls m rest in
      (r :: rs, m')
  end.
End PytorchLLVMJIT.

(** ** The instance cache *)

(** The three optional fields a caller passes for a target. *)
Record TargetDescriptor := mkTarget {
  triple : option string;
  cpu : option string;
  attrs : option string
}.

Module PytorchLLVMJITCache.
(** The static [jit_cache_] owns its engines: [heap] is the storage of
    the engines allocated so far (none is ever freed), and the cache maps
    a key to the address of its engine. *)
Record state := mk {
  heap : gmap addr PytorchLLVMJIT.t;
  jit_cache_ : gmap string addr
}.

Definition init : state := mk ∅ ∅.

Definition getCacheKey (triple cpu attrs : option string) : string :=
  (((("triple:" +:+ match triple with Some s => s | None => "" end)
      +:+ "cpu:") +:+ match cpu with Some s => s | None => "" end)
      +:+ "attrs:") +:+ match attrs with Some s => s | None => "" end.

(** [std::make_unique]: storage at an address no live engine occupies. *)
Definition make_unique (h : gmap addr PytorchLLVMJIT.t)
    (jit : PytorchLLVMJIT.t) : addr * gmap addr PytorchLLVMJIT.t :=
  let p := fresh (dom h) in (p, <[p := jit]> h).

Definition getPytorchLLVMJITInstance (E : Env) (st : state)
    (triple cpu attrs : option string) : option (addr * state) :=
  let cacheKey := getCacheKey triple cpu attrs in
  match jit_cache_ st !! cacheKey with
  | Some it => Some (it, st)
  | None =>
      jit ← PytorchLLVMJIT.create E triple cpu attrs;
      let '(jit_to_return, h) := make_unique (heap st) jit in
      Some (jit_to_return, mk h (<[cacheKey := jit_to_return]> (jit_cache_ st)))
  end.

(** [get(descriptor)] *)
Definition get (E : Env) (st : state) (d : TargetDescriptor)
    : option (addr * state) :=
  getPytorchLLVMJITInstance E st (triple d) (cpu d) (attrs d).

(** [jit->getUniqueFunctionName(name)] on the engine at address [jit]. *)
Definition call_getUniqueFunctionName (h : gmap addr PytorchLLVMJIT.t)
    (jit : addr) (name : string)
    : option (string * gmap addr PytorchLLVMJIT.t) :=
  this ← h !! jit;
  let '(unique_name, this') :=
    PytorchLLVMJIT.getUniqueFunctionName_on this name in
  Some (unique_name, <[jit := this']> h).

(** A sequence of [get]s, in the order the lock serialises them. *)
Fixpoint gets (E : Env) (st : state) (ds : list TargetDescriptor)
    : option (list addr * state) :=
  match ds with
  | [] => Some ([], st)
  | d :: rest =>
      '(p, st') ← get E st d;
      '(ps, st'') ← gets E st' rest;
      Some (p :: ps, st'')
  end.
End PytorchLLVMJITCache.

(** ** Call arguments *)

Module CallArg.
(** The scalar kinds of [AT_FORALL_SCALAR_TYPES_AND3(Bool, Half, BFloat16)]:
    [uint8_t], [int8_t], [int16_t], [int], [int64_t], [float], [double],
    then [bool], [at::Half] and [at::BFloat16]. *)
Inductive ScalarType :=
  Byte | Char | Short | Int | Long | Float | Double | Bool | Half | BFloat16.

(** [sizeof(Type)], in bytes. *)
Definition sizeof (K : ScalarType) : nat :=
  match K with
  | Byte | Char | Bool => 1
  | Short | Half | BFloat16 => 2
  | Int | Float => 4
  | Long | Double => 8
  end.

Definition is_signed (K : ScalarType) : bool :=
  match K with
  | Char | Short | Int | Long => true
  | _ => false
  end.

(** [sizeof(void* )] on the 64-bit hosts the library builds for. *)
Definition sizeof_ptr : nat := 8.

(** The values of a kind.  An integer kind holds the integers of its range
    and [bool] holds 0 and 1; a floating kind is taken by its bit pattern
    (sign, exponent and fraction bits as one unsigned number), which is what
    a byte copy preserves. *)
Definition value_of (K : ScalarType) (v : Z) : Prop :=
  match K with
  | Bool => (0 ≤ v ≤ 1)%Z
  | _ =>
      if is_signed K
      then (- 2 ^ (8 * Z.of_nat (sizeof K) - 1) ≤ v
            < 2 ^ (8 * Z.of_nat (sizeof K) - 1))%Z
      else (0 ≤ v < 2 ^ (8 * Z.of_nat (sizeof K)))%Z
  end.

Definition byte_of_Z (z : Z) : Byte.byte :=
  default Byte.x00 (Byte.of_N (Z.to_N (z `mod` 256))).

(** The object representation: [n] bytes, least significant first, two's
    complement for a negative value. *)
Fixpoint to_bytes (n : nat) (v : Z) : list Byte.byte :=
  match n with
  | O => []
  | S n' => byte_of_Z v :: to_bytes n' (v `div` 256)
  end.

Fixpoint of_bytes (bs : list Byte.byte) : Z :=
  match bs with
  | [] => 0
  | b :: bs' => Z.of_N (Byte.to_N b) + 256 * of_bytes bs'
  end.

(** Reading an lvalue of kind [K] from its bytes. *)
Definition load (K : ScalarType) (bs : list Byte.byte) : Z :=
  let u := of_bytes bs in
  if is_signed K && bool_decide (2 ^ (8 * Z.of_nat (sizeof K) - 1) ≤ u)%Z
  then (u - 2 ^ (8 * Z.of_nat (sizeof K)))%Z
  else u.

(** [memcpy(dst, src, n)] on the bytes of [dst]. *)
Definition memcpy (dst src : list Byte.byte) (n : nat) : list Byte.byte :=
  take n src ++ drop n dst.

(** The cell: the bytes of the one member [void* data_]. *)
Record t := mk { data_ : list Byte.byte }.

(** [CallArg(Type v)]: the member is not initialised, [uninit] is whatever
    its storage held; the first [sizeof(Type)] bytes receive [v]. *)
Definition ctor (K : ScalarType) (v : Z) (uninit : t) : t :=
  mk (memcpy (data_ uninit) (to_bytes (sizeof K) v) (sizeof K)).

(** [*arg.NamePtr()]: the cell's storage read as a [Type]. *)
Definition deref_Ptr (K : ScalarType) (arg : t) : Z :=
  load K (take (sizeof K) (data_ arg)).

(** [CallArg(void* ptr)] (and the [std::vector] constructor, with
    [buffer.data()]): the member is initialised with the pointer. *)
Definition ctor_ptr (ptr : Z) : t := mk (to_bytes sizeof_ptr ptr).

(** [data()]: the member, as a pointer. *)
Definition data (arg : t) : Z := of_bytes (data_ arg).
End CallArg.

(** ** Names as the specification words them *)

(** The name promised to the call that follows [n] earlier calls with the
    same base: the base itself, then the base with the suffix [_n]. *)
Definition nth_unique_name (base : string) (n : nat) : string :=
  match n with
  | O => base
  | S _ => base +:+ "_" +:+ pretty (Z.of_nat n)
  end.

(** The name the code hands to the call that follows [n] earlier calls
    with the same base: the base itself, then the base with the suffix
    [_(n+1)]. *)
Definition returned_name (base : string) (n : nat) : string :=
  match n with
  | O => base
  | S _ => base +:+ "_" +:+ pretty (Z.of_nat n + 1)%Z
  end.

(** How many calls of a sequence were made with [base]. *)
Definition occurrences (base : string) (names : list string) : nat :=
  length (filter (λ x, x = base) names).

(** ** Threads asking for names *)

(** Each call holds [mutex_] from its first statement to its return, so a
    concurrent run is an interleaving of whole calls.  A thread still has
    [todo] names to ask for and has received [got]. *)
Module Threads.
Record thread := mkThread { todo : nat; got : list string }.

Definition config : Type := gmap string Z * list thread.

Inductive step (base : string) : config → config → Prop :=
| step_call m pool i k g :
    pool !! i = Some (mkThread (S k) g) →
    step base (m, pool)
      ((PytorchLLVMJIT.getUniqueFunctionName m base).2,
       <[i := mkThread k
                (g ++ [(PytorchLLVMJIT.getUniqueFunctionName m base).1])]>
         pool).

(** [N] threads, each about to ask for [M] names, on a table [m]. *)
Definition start (m : gmap string Z) (N M : nat) : config :=
  (m, replicate N (mkThread M [])).

Definition finished (c : config) : Prop :=
  Forall (λ t, todo t = 0) c.2.

(** Every name a thread has received so far. *)
Definition received (c : config) : list string :=
  concat (got <$> c.2).

(** The run a schedule (the thread that goes next, each time) produces. *)
Fixpoint schedule (base : string) (sched : list nat) (c : config) : config :=
  match sched with
  | [] => c
  | i :: rest =>
      match c.2 !! i with
      | Some (mkThread (S k) g) =>
          let r := PytorchLLVMJIT.getUniqueFunctionName c.1 base in
          schedule base rest (r.2, <[i := mkThread k (g ++ [r.1])]> c.2)
      | _ => schedule base rest c
      end
  end.
End Threads.

(** ** Target resolution as the specification words it *)

(** The feature list a vector of feature strings leaves on a builder. *)
Definition features_of (E : Env) (vec : list string) : list string :=
  foldl (λ fs f, AddFeature E fs f true) [] vec.

(** Absent fields resolved to the host's, whatever the other fields are. *)
Definition resolved_triple (E : Env) (triple : option string) : string :=
  default (getProcessTriple E) triple.

Definition resolved_cpu (E : Env) (cpu : option string) : string :=
  default (getHostCPUName E) cpu.

Definition resolved_features (E : Env) (attrs : option string) : list string :=
  match attrs with
  | Some a => features_of E (Split E a)
  | None => features_of E (getHostSubtargetFeatures E)
  end.

(** ** The CUDA hooks *)

Module CUDAHooks.
(** A call returns a value or leaves by an exception ([TORCH_CHECK],
    [AT_CUDA_DRIVER_CHECK]). *)
Inductive outcome (A : Type) :=
| Returns (a : A)
| Throws.
Arguments Returns {A} a.
Arguments Throws {A}.

(** What the CUDA runtime and driver answer. *)
Record Cuda := mkCuda {
  (** [at::cuda::device_count()] *)
  device_count : Z;
  (** [cudaGetDevice]: the device when it returns [cudaSuccess] *)
  cudaGetDevice : option Z;
  (** [cuDevicePrimaryCtxGetState]: the value written to [ctx_is_active]
      when the driver call succeeds *)
  cuDevicePrimaryCtxGetState : Z → option Z
}.

Definition current_device (c : Cuda) : Z :=
  match cudaGetDevice c with
  | Some device => device
  | None => -1
  end.

Definition hasPrimaryContext (c : Cuda) (device_index : Z) : outcome bool :=
  if bool_decide (0 ≤ device_index ∧ device_index < device_count c)%Z then
    match cuDevicePrimaryCtxGetState c device_index with
    | Some ctx_is_active => Returns (bool_decide (ctx_is_active = 1%Z))
    | None => Throws
    end
  else Throws.

(** The [for] loop of [getDeviceIndexWithPrimaryContext], from
    [device_index] on, with [remaining] indices below [device_count]. *)
Fixpoint scan_devices (c : Cuda) (current_device_index device_index : Z)
    (remaining : nat) : outcome (option Z) :=
  match remaining with
  | O => Returns None
  | S remaining' =>
      if decide (device_index = current_device_index)
      then scan_devices c current_device_index (device_index + 1) remaining'
      else
        match hasPrimaryContext c device_index with
        | Throws => Throws
        | Returns true => Returns (Some device_index)
        | Returns false =>
            scan_devices c current_device_index (device_index + 1) remaining'
        end
  end.

Definition getDeviceIndexWithPrimaryContext (c : Cuda) : outcome (option Z) :=
  let current_device_index := current_device c in
  match (if bool_decide (0 ≤ current_device_index)%Z
         then hasPrimaryContext c current_device_index
         else Returns false) with
  | Throws => Throws
  | Returns true => Returns (Some current_device_index)
  | Returns false =>
      scan_devices c current_device_index 0 (Z.to_nat (device_count c))
  end.

(** Device [i] exists and the driver reports its primary context active. *)
Definition active_device (c : Cuda) (i : Z) : Prop :=
  (0 ≤ i < device_count c)%Z ∧ cuDevicePrimaryCtxGetState c i = Some 1%Z.

(** The two lambdas of [showConfig], by the text they send to the stream;
    [/] and [%] on [int] truncate. *)
Definition printCudaStyleVersion (v : Z) : string :=
  pretty (Z.quot v 1000) +:+ "." +:+ pretty (Z.rem (Z.quot v 10) 100)
  +:+ (if decide (Z.rem v 10 ≠ 0%Z) then "." +:+ pretty (Z.rem v 10) else "").

Definition printCudnnStyleVersion (v : Z) : string :=
  pretty (Z.quot v 1000) +:+ "." +:+ pretty (Z.rem (Z.quot v 100) 10)
  +:+ (if decide (Z.rem v 100 ≠ 0%Z) then "." +:+ pretty (Z.rem v 100) else "").

(** A machine with two devices, the second one current and idle, the first
    with an active primary context. *)
Definition two_gpus : Cuda :=
  mkCuda 2 (Some 1%Z) (λ i, if decide (i = 0%Z) then Some 1%Z else Some 0%Z).
End CUDAHooks.

(** ** Characters of a string *)

(** Every character of [s] satisfies [P]. *)
Fixpoint all_chars (P : ascii → bool) (s : string) : bool :=
  match s with
  | EmptyString => true
  | String a s' => P a && all_chars P s'
  end.

Definition is_digit (a : ascii) : bool :=
  bool_decide (48 ≤ Ascii.N_of_ascii a ≤ 57)%N.

(** [s] does not contain the character [c]. *)
Definition lacks (c : ascii) (s : string) : bool :=
  all_chars (λ a, negb (Ascii.eqb a c)) s.

(** ** A concrete host *)

(** An x86-64 Linux host, to run the definitions on: features are split at
    commas, lower-cased and given a [+] or [-] flag as LLVM's
    [SubtargetFeatures] does; symbols are not prefixed. *)
Module Host.
Fixpoint split_go (cur : string) (s : string) : list string :=
  match s with
  | EmptyString => if decide (cur = "") then [] else [String.rev cur]
  | String a s' =>
      if decide (a = ","%char)
      then (if decide (cur = "") then [] else [String.rev cur])
             ++ split_go "" s'
      else split_go (String a cur) s'
  end.

Definition split (s : string) : list string := split_go "" s.

Definition lower_char (a : ascii) : ascii :=
  let n := Ascii.N_of_ascii a in
  if bool_decide (65 ≤ n ≤ 90)%N then Ascii.ascii_of_N (n + 32) else a.

Fixpoint lower (s : string) : string :=
  match s with
  | EmptyString => EmptyString
  | String a s' => String (lower_char a) (lower s')
  end.

Definition hasFlag (s : string) : bool :=
  match s with
  | String a _ => bool_decide (a = "+"%char ∨ a = "-"%char)
  | EmptyString => false
  end.

Definition add_feature (fs : list string) (s : string) (enable : bool)
    : list string :=
  if decide (s = "") then fs
  else fs ++ [if hasFlag s then lower s
              else (if enable then "+" else "-") +:+ lower s].

Definition linux : Env := {|
  getProcessTriple := "x86_64-unknown-linux-gnu";
  getHostCPUName := "skylake";
  getHostCPUFeatures := [("avx2", true); ("sse4a", false)];
  Split := split;
  AddFeature := add_feature;
  createTargetMachine := λ b, bool_decide (TT b ≠ "");
  Mangle := λ name, name;
  processSymbol := λ name, if decide (name = "malloc") then Some 7001%N else None;
  getIntrinsicSymbols := [("sinf", 1001%N); ("cosf", 1002%N)];
  getNNCFunctionRegistry := [("nnc_aten_conv2d", 2001%N)];
  DispatchParallel := 3001%N
|}.

(** The same host with an external function registered under the name of
    an intrinsic. *)
Definition linux_clash : Env := {|
  getProcessTriple := getProcessTriple linux;
  getHostCPUName := getHostCPUName linux;
  getHostCPUFeatures := getHostCPUFeatures linux;
  Split := Split linux;
  AddFeature := AddFeature linux;
  createTargetMachine := createTargetMachine linux;
  Mangle := Mangle linux;
  processSymbol := processSymbol linux;
  getIntrinsicSymbols := getIntrinsicSymbols linux;
  getNNCFunctionRegistry := [("nnc_aten_conv2d", 2001%N); ("sinf", 2002%N)];
  DispatchParallel := DispatchParallel linux
|}.

(** The same host with a name listed twice among the intrinsics. *)
Definition linux_twice : Env := {|
  getProcessTriple := getProcessTriple linux;
  getHostCPUName := getHostCPUName linux;
  getHostCPUFeatures := getHostCPUFeatures linux;
  Split := Split linux;
  AddFeature := AddFeature linux;
  createTargetMachine := createTargetMachine linux;
  Mangle := Mangle linux;
  processSymbol := processSymbol linux;
  getIntrinsicSymbols := [("sinf", 1001%N); ("cosf", 1002%N); ("sinf", 1003%N)];
  getNNCFunctionRegistry := getNNCFunctionRegistry linux;
  DispatchParallel := DispatchParallel linux
|}.

(** The engine [linux] builds for a triple, with no cpu and no attrs. *)
Definition engine (triple : option string) : PytorchLLVMJIT.t :=
  PytorchLLVMJIT.mk
    (PytorchLLVMJITImpl.mk
       (makeTargetMachineBuilder linux triple None None)
       {[ "sinf" := 1001%N; "cosf" := 1002%N; "nnc_aten_conv2d" := 2001%N;
          "DispatchParallel" := 3001%N ]}
       {[ "sinf"; "cosf" ]})
    ∅.
End Host.

(** ** What the proofs keep track of *)

(** The table after the calls [pre]: a base never asked for is absent, one
    asked for [S k] times is at [k]. *)
Definition tracks (m : gmap string Z) (pre : list string) : Prop :=
  ∀ base, m !! base = match occurrences base pre with
                      | O => None
                      | S k => Some (Z.of_nat k)
                      end.

(** A name the table accounts for: the base itself, or the base with a
    suffix no greater than the counter plus one. *)
Definition issued (base : string) (m : gmap string Z) (x : string) : Prop :=
  ∃ c, m !! base = Some c
       ∧ (x = base ∨ ∃ z, (z ≤ c + 1)%Z ∧ x = (base +:+ "_") +:+ pretty z).

Definition names_inv (base : string) (c : Threads.config) : Prop :=
  NoDup (Threads.received c)
  ∧ ∀ x, x ∈ Threads.received c → issued base c.1 x.

(** The calls still to be made. *)
Definition pending (c : Threads.config) : nat :=
  sum_list (Threads.todo <$> c.2).

(** The key of a descriptor. *)
Definition key_of (d : TargetDescriptor) : string :=
  PytorchLLVMJITCache.getCacheKey (triple d) (cpu d) (attrs d).

(** What the cache keeps true: every cached address is that of an engine in
    storage, and no two keys share an address. *)
Definition cache_inv (st : PytorchLLVMJITCache.state) : Prop :=
  (∀ k p, PytorchLLVMJITCache.jit_cache_ st !! k = Some p → p ∈ dom (PytorchLLVMJITCache.heap st))
  ∧ (∀ k1 k2 p,
       PytorchLLVMJITCache.jit_cache_ st !! k1 = Some p → PytorchLLVMJITCache.jit_cache_ st !! k2 = Some p → k1 = k2).

(** The static list under mangled names. *)
Definition mangled (E : Env) (l : list (string * addr)) : list (string * addr) :=
  (λ sym, (Mangle E sym.1, sym.2)) <$> l.

Ltac eval_pow2 :=
  repeat match goal with
    | |- context [(2 ^ ?e)%Z] =>
        let x := eval vm_compute in (2 ^ e)%Z in
        change (2 ^ e)%Z with x in *
    | H : context [(2 ^ ?e)%Z] |- _ =>
        let x := eval vm_compute in (2 ^ e)%Z in
        change (2 ^ e)%Z with x in *
    end.

(** ** Registered names *)

(** The mangled names of a list of symbols. *)
Definition mangled_names (E : Env) (l : list (string * addr)) : list string :=
  (λ sym, Mangle E sym.1) <$> l.

(** No name is registered twice by separate definitions: the registry's
    names and [DispatchParallel] are pairwise distinct once mangled, and none
    of them is the mangled name of a static intrinsic. *)
Definition registration_clash_free (E : Env) : Prop :=
  NoDup (mangled_names E (getNNCFunctionRegistry E)
         ++ [Mangle E "DispatchParallel"])
  ∧ ∀ k, k ∈ mangled_names E (getNNCFunctionRegistry E)
             ++ [Mangle E "DispatchParallel"] →
         k ∉ mangled_names E (getIntrinsicSymbols E).

(** The namespace a successful registration builds. *)
Definition registered (E : Env) : gmap string addr :=
  list_to_map (mangled E (getIntrinsicSymbols E))
  ∪ list_to_map (mangled E (getNNCFunctionRegistry E))
  ∪ {[ Mangle E "DispatchParallel" := DispatchParallel E ]}.

(** The cache and the storage grow together. *)
Definition cache_sizes (st : PytorchLLVMJITCache.state) : Prop :=
  size (PytorchLLVMJITCache.heap st) = size (PytorchLLVMJITCache.jit_cache_ st).

(** * Properties *)

Section strings.
Lemma string_length_app (s1 s2 : string) :
  String.length (s1 +:+ s2) = String.length s1 + String.length s2.
Proof.
  induction s1 as [|a s1 IH]; [done|].
  change (S (String.length (s1 +:+ s2)) = S (String.length s1 + String.length s2)).
  by rewrite IH.
Qed.

Lemma string_app_assoc (s1 s2 s3 : string) :
  (s1 +:+ s2) +:+ s3 = s1 +:+ s2 +:+ s3.
Proof.
  induction s1 as [|a s1 IH]; [done|].
  change (String a ((s1 +:+ s2) +:+ s3) = String a (s1 +:+ s2 +:+ s3)).
  by rewrite IH.
Qed.

Lemma string_app_nil_r (s : string) : s +:+ "" = s.
Proof.
  induction s as [|a s IH]; [done|].
  change (String a (s +:+ "") = String a s). by rewrite IH.
Qed.

Lemma string_app_ne_self (s t : string) : t ≠ "" → s ≠ s +:+ t.
Proof.
  intros Ht Heq. apply (f_equal String.length) in Heq.
  rewrite string_length_app in Heq. destruct t; [done|]. simpl in Heq. lia.
Qed.
End strings.

(** ** Unique names *)

Section unique_names.
Import PytorchLLVMJIT.

Lemma suffixed_ne_base (base : string) (z : Z) :
  (base +:+ "_") +:+ pretty z ≠ base.
Proof.
  rewrite string_app_assoc. intros Heq. symmetry in Heq.
  by apply string_app_ne_self in Heq.
Qed.

Lemma suffixed_inj (base : string) (z1 z2 : Z) :
  (base +:+ "_") +:+ pretty z1 = (base +:+ "_") +:+ pretty z2 → z1 = z2.
Proof. intros Heq. by apply (inj (String.app _)), (inj pretty) in Heq. Qed.

Lemma returned_name_inj (base : string) (n1 n2 : nat) :
  returned_name base n1 = returned_name base n2 → n1 = n2.
Proof.
  destruct n1 as [|n1], n2 as [|n2]; unfold returned_name; [done|..].
  - intros Heq. by apply string_app_ne_self in Heq.
  - intros Heq. symmetry in Heq. by apply string_app_ne_self in Heq.
  - intros Heq. apply (inj (String.app _)), (inj (String.app _)) in Heq.
    apply (inj pretty) in Heq. lia.
Qed.

Lemma occurrences_snoc (base x : string) (pre : list string) :
  occurrences base (pre ++ [x])
  = occurrences base pre + (if decide (x = base) then 1 else 0).
Proof.
  unfold occurrences. rewrite filter_app, length_app. f_equal.
  rewrite filter_cons, filter_nil. by case_decide.
Qed.

Lemma tracks_empty : tracks ∅ [].
Proof. intros base. by rewrite lookup_empty. Qed.

Lemma getUniqueFunctionName_tracks m pre name :
  tracks m pre →
  (getUniqueFunctionName m name).1 = returned_name name (occurrences name pre)
  ∧ tracks (getUniqueFunctionName m name).2 (pre ++ [name]).
Proof.
  intros Hm. unfold getUniqueFunctionName. pose proof (Hm name) as Hn.
  destruct (occurrences name pre) as [|k] eqn:Hocc; rewrite Hn; simpl;
    rewrite ?lookup_insert_eq; simpl.
  - split; [done|]. intros base. rewrite occurrences_snoc, lookup_insert.
    case_decide as Hd; subst.
    + by rewrite Hocc.
    + by rewrite Hm, Nat.add_0_r.
  - split.
    + rewrite string_app_assoc. do 3 f_equal. lia.
    + intros base. rewrite occurrences_snoc, lookup_insert.
      case_decide as Hd; subst.
      * rewrite Hocc, Nat.add_1_r. f_equal. lia.
      * by rewrite Hm, Nat.add_0_r.
Qed.

Lemma calls_snoc m names name :
  calls m (names ++ [name])
  = ((calls m names).1 ++ [(getUniqueFunctionName (calls m names).2 name).1],
     (getUniqueFunctionName (calls m names).2 name).2).
Proof.
  revert m. induction names as [|x names IH]; intros m; simpl.
  - by destruct (getUniqueFunctionName m name).
  - destruct (getUniqueFunctionName m x) as [r m1]. rewrite IH.
    by destruct (calls m1 names).
Qed.

Lemma calls_length m names : length (calls m names).1 = length names.
Proof.
  revert m. induction names as [|x names IH]; intros m; simpl; [done|].
  destruct (getUniqueFunctionName m x) as [r m1]. specialize (IH m1).
  destruct (calls m1 names). simpl in *. by rewrite IH.
Qed.

Lemma calls_tracks names : tracks (calls ∅ names).2 names.
Proof.
  induction names as [|x names IH] using rev_ind; [apply tracks_empty|].
  rewrite calls_snoc. simpl. by apply getUniqueFunctionName_tracks.
Qed.

Lemma calls_lookup names i base :
  names !! i = Some base →
  (calls ∅ names).1 !! i
  = Some (returned_name base (occurrences base (take i names))).
Proof.
  revert i. induction names as [|x names IH] using rev_ind; intros i Hi.
  { by rewrite lookup_nil in Hi. }
  rewrite calls_snoc. simpl.
  destruct (decide (i < length names)) as [Hlt|Hge].
  - rewrite lookup_app_l in Hi by done.
    rewrite lookup_app_l by (by rewrite calls_length).
    rewrite take_app_le by lia. by apply IH.
  - apply lookup_lt_Some in Hi as Hlen. rewrite length_app in Hlen.
    simpl in Hlen. assert (i = length names) as -> by lia.
    rewrite list_lookup_middle in Hi by done. simplify_eq.
    rewrite list_lookup_middle by (by rewrite calls_length).
    rewrite take_app_length. f_equal.
    by apply getUniqueFunctionName_tracks, calls_tracks.
Qed.
End unique_names.

Section unique_name_claims.
Import PytorchLLVMJIT.

Lemma occurrences_take_lt (names : list string) (i j : nat) (base : string) :
  i < j → names !! i = Some base →
  occurrences base (take i names) < occurrences base (take j names).
Proof.
  intros Hij Hi.
  assert (take j names !! i = Some base) as Hi'.
  { by rewrite lookup_take_lt. }
  apply take_drop_middle in Hi'. rewrite take_take in Hi'.
  replace (i `min` j) with i in Hi' by lia. rewrite <-Hi'.
  unfold occurrences. rewrite filter_app, length_app, filter_cons_True by done.
  simpl. lia.
Qed.

(** C4: the code does not return the promised suffixes.  On a fresh
    engine, after any earlier calls, a call with base [b] returns [b]
    unchanged when no earlier call used [b], and [b] with the suffix [_(n+1)]
    when [n >= 1] earlier calls used [b] (the suffix is read back after the
    counter was written), where [_n] was promised; three calls with "kernel"
    followed by one with "other" return "kernel", "kernel_2", "kernel_3" and
    "other", not "kernel", "kernel_1", "kernel_2" and "other". *)
Theorem getUniqueFunctionName_skips_suffix_1 :
  (∀ (earlier : list string) (b : string),
     (getUniqueFunctionName (calls ∅ earlier).2 b).1
     = returned_name b (occurrences b earlier))
  ∧ (∀ b : string, (getUniqueFunctionName ∅ b).1 = b)
  ∧ (∀ (b : string) (n : nat), returned_name b (S n) ≠ nth_unique_name b (S n))
  ∧ (calls ∅ ["kernel"; "kernel"; "kernel"; "other"]).1
    = ["kernel"; "kernel_2"; "kernel_3"; "other"]
  ∧ (calls ∅ ["kernel"; "kernel"; "kernel"; "other"]).1
    ≠ ["kernel"; "kernel_1"; "kernel_2"; "other"].
Proof.
  split; [|split; [|split; [|split]]].
  - intros earlier b. by apply getUniqueFunctionName_tracks, calls_tracks.
  - intros b. unfold getUniqueFunctionName. by rewrite lookup_empty.
  - intros b n Heq. unfold returned_name, nth_unique_name in Heq.
    apply (inj (String.app _)), (inj (String.app _)), (inj pretty) in Heq. lia.
  - vm_compute. reflexivity.
  - vm_compute. discriminate.
Qed.

(** C8, as stated, fails: the two engines the cache builds for two
    targets live in one process, and the first call with base "kernel" on
    each of them returns "kernel". *)
Lemma getUniqueFunctionName_same_name_on_two_engines :
  ∃ st h1 h2,
    PytorchLLVMJITCache.gets Host.linux PytorchLLVMJITCache.init
      [mkTarget None None None; mkTarget (Some "aarch64") None None]
    = Some ([0%N; 1%N], st)
    ∧ PytorchLLVMJITCache.call_getUniqueFunctionName
        (PytorchLLVMJITCache.heap st) 0%N "kernel" = Some ("kernel", h1)
    ∧ PytorchLLVMJITCache.call_getUniqueFunctionName h1 1%N "kernel"
      = Some ("kernel", h2).
Proof. eexists _, _, _. repeat split; vm_compute; reflexivity. Qed.

(** C8, amended: in any sequence of calls on one engine, two different
    calls made with the same base return different names. *)
Theorem getUniqueFunctionName_never_repeats
    (names : list string) (i j : nat) (b ri rj : string) :
  i ≠ j →
  names !! i = Some b → names !! j = Some b →
  (calls ∅ names).1 !! i = Some ri → (calls ∅ names).1 !! j = Some rj →
  ri ≠ rj.
Proof.
  intros Hij Hi Hj Hri Hrj Heq.
  rewrite (calls_lookup _ _ _ Hi) in Hri.
  rewrite (calls_lookup _ _ _ Hj) in Hrj.
  injection Hri as <-. injection Hrj as <-.
  apply returned_name_inj in Heq.
  destruct (decide (i < j)).
  - pose proof (occurrences_take_lt names i j b ltac:(lia) Hi). lia.
  - pose proof (occurrences_take_lt names j i b ltac:(lia) Hj). lia.
Qed.

Lemma getUniqueFunctionName_never_repeats_witness :
  (calls ∅ ["kernel"; "other"; "kernel"]).1 !! 0 = Some "kernel"
  ∧ (calls ∅ ["kernel"; "other"; "kernel"]).1 !! 2 = Some "kernel_2"
  ∧ "kernel" ≠ "kernel_2".
Proof.
  split; [vm_compute; reflexivity|]. split; [vm_compute; reflexivity|].
  apply (getUniqueFunctionName_never_repeats
           ["kernel"; "other"; "kernel"] 0 2 "kernel" "kernel" "kernel_2");
    [lia | reflexivity | reflexivity
    | vm_compute; reflexivity | vm_compute; reflexivity].
Defined.

(** C10, as stated, fails in its example: two calls with "kernel" do not
    return "kernel" and "kernel_1", and a following first call with base
    "kernel_1" repeats nothing. *)
Lemma getUniqueFunctionName_example_repeats_nothing :
  (calls ∅ ["kernel"; "kernel"]).1 ≠ ["kernel"; "kernel_1"]
  ∧ (calls ∅ ["kernel"; "kernel"; "kernel_1"]).1
    = ["kernel"; "kernel_2"; "kernel_1"]
  ∧ NoDup (calls ∅ ["kernel"; "kernel"; "kernel_1"]).1.
Proof.
  split; [vm_compute; discriminate|]. split; [vm_compute; reflexivity|].
  vm_compute. repeat constructor; rewrite ?elem_of_cons, ?elem_of_nil;
    intros H; repeat (destruct H as [H|H]); discriminate || done.
Qed.

(** C10, amended: names are not distinct across bases: for every base,
    after two calls with it, a first call whose base is the name the second
    call returned gets that same name again. *)
Theorem getUniqueFunctionName_repeats_across_bases (b : string) :
  ∃ r : string,
    r ≠ b
    ∧ (calls ∅ [b; b]).1 = [b; r]
    ∧ (calls ∅ [b; b; r]).1 = [b; r; r].
Proof.
  exists ((b +:+ "_") +:+ pretty 2%Z).
  assert ((b +:+ "_") +:+ pretty 2%Z ≠ b) as Hne by apply suffixed_ne_base.
  split; [done|].
  unfold calls, getUniqueFunctionName.
  rewrite lookup_empty. simpl. rewrite !lookup_insert_eq. simpl.
  split; [done|].
  rewrite lookup_insert_ne by done. by rewrite lookup_insert_ne by done.
Qed.
End unique_name_claims.

(** ** Names under concurrent callers *)

Section concurrent_names.
Import PytorchLLVMJIT Threads.

Variable base : string.

Lemma perm_snoc_middle {A} (a g b : list A) (r : A) :
  a ++ (g ++ [r]) ++ b ≡ₚ r :: a ++ g ++ b.
Proof.
  rewrite <-(assoc_L (++) g). simpl.
  rewrite (Permutation_middle a). apply Permutation_app_head.
  by rewrite <-Permutation_middle.
Qed.

Lemma received_step m m' pool i k g r :
  pool !! i = Some (mkThread (S k) g) →
  received (m', <[i := mkThread k (g ++ [r])]> pool) ≡ₚ r :: received (m, pool).
Proof.
  intros Hi. unfold received. simpl.
  rewrite insert_take_drop by (by eapply lookup_lt_Some).
  rewrite <-(take_drop_middle pool i _ Hi) at 3.
  rewrite !fmap_app, !fmap_cons, !concat_app, !concat_cons. simpl.
  apply perm_snoc_middle.
Qed.

Lemma sum_list_append (l1 l2 : list nat) :
  sum_list (l1 ++ l2) = sum_list l1 + sum_list l2.
Proof. induction l1 as [|x l1 IH]; simpl; [done|]. rewrite IH. lia. Qed.

Lemma pending_step m m' pool i k g g' :
  pool !! i = Some (mkThread (S k) g) →
  pending (m, pool) = S (pending (m', <[i := mkThread k g']> pool)).
Proof.
  intros Hi. unfold pending. simpl.
  rewrite insert_take_drop by (by eapply lookup_lt_Some).
  rewrite <-(take_drop_middle pool i _ Hi) at 1.
  rewrite !fmap_app, !fmap_cons, !sum_list_append. simpl. lia.
Qed.

Lemma names_inv_step c c' :
  step base c c' → names_inv base c → names_inv base c'.
Proof.
  intros Hstep [Hnd Hiss]. destruct Hstep as [m pool i k g Hi].
  pose proof (received_step m (getUniqueFunctionName m base).2 pool i k g
                (getUniqueFunctionName m base).1 Hi) as Hperm.
  unfold names_inv. setoid_rewrite Hperm. clear Hperm.
  unfold getUniqueFunctionName. simpl in Hiss.
  destruct (m !! base) as [c|] eqn:Hm; simpl.
  - rewrite (lookup_insert_eq m base). simpl. split.
    + apply NoDup_cons. split; [|done]. intros Hin.
      destruct (Hiss _ Hin) as (c' & Hc' & [Hx|(z & Hz & Hx)]).
      * by apply suffixed_ne_base in Hx.
      * rewrite Hm in Hc'. apply suffixed_inj in Hx. simplify_eq. lia.
    + intros x Hx. exists (c + 1)%Z. rewrite lookup_insert_eq.
      split; [done|]. apply elem_of_cons in Hx as [->|Hx].
      * right. exists (c + 1 + 1)%Z. split; [lia|done].
      * destruct (Hiss _ Hx) as (c' & Hc' & [->|(z & Hz & ->)]); [by left|].
        rewrite Hm in Hc'. simplify_eq. right. exists z. split; [lia|done].
  - assert (received (m, pool) = []) as Hnil.
    { destruct (received (m, pool)) as [|x l] eqn:Hr; [done|].
      destruct (Hiss x) as (c' & Hc' & _); [left|].
      by rewrite Hm in Hc'. }
    rewrite Hnil. split.
    + apply NoDup_singleton.
    + intros x Hx. apply list_elem_of_singleton in Hx as ->.
      exists 0%Z. rewrite lookup_insert_eq. by split; [|left].
Qed.

Lemma count_step c c' :
  step base c c' →
  pending c = S (pending c') ∧ length (received c') = S (length (received c)).
Proof.
  intros [m pool i k g Hi]. split.
  - by apply (pending_step _ _ pool i k g).
  - by rewrite (received_step m).
Qed.

Lemma received_start m N M : received (start m N M) = [].
Proof.
  unfold received, start. simpl. induction N as [|N IH]; [done|]. simpl. done.
Qed.

Lemma pending_start m N M : pending (start m N M) = N * M.
Proof.
  unfold pending, start. simpl. by rewrite fmap_replicate, sum_list_replicate.
Qed.

Lemma pending_0_finished c : pending c = 0 → finished c.
Proof.
  unfold pending, finished. destruct c as [m pool]. simpl.
  induction pool as [|t pool IH]; [constructor|].
  rewrite fmap_cons. simpl. intros Hs. constructor; [lia|]. apply IH. lia.
Qed.

Lemma finished_pending_0 c : finished c → pending c = 0.
Proof.
  unfold pending, finished. destruct c as [m pool]. simpl.
  induction 1 as [|t pool Ht _ IH]; [done|].
  rewrite fmap_cons. simpl. by rewrite Ht, IH.
Qed.

Lemma pending_progress c n :
  pending c = S n → ∃ c', step base c c'.
Proof.
  destruct c as [m pool]. unfold pending. simpl. intros Hs.
  assert (∃ i k g, pool !! i = Some (mkThread (S k) g)) as (i & k & g & Hi).
  { clear m. revert n Hs. induction pool as [|[[|k] g] pool IH]; intros n Hs.
    - done.
    - rewrite fmap_cons in Hs. simpl in Hs.
      destruct (IH _ Hs) as (i & k & g' & Hi).
      by exists (S i), k, g'.
    - by exists 0, k, g. }
  eexists. by apply (step_call base m pool i k g).
Qed.

Lemma run_to_completion c : ∃ c', rtc (step base) c c' ∧ finished c'.
Proof.
  remember (pending c) as n eqn:Hn. revert c Hn.
  induction n as [|n IH]; intros c Hn.
  - exists c. split; [done|]. by apply pending_0_finished.
  - destruct (pending_progress c n) as [c1 Hstep]; [done|].
    destruct (count_step _ _ Hstep) as [Hp _].
    destruct (IH c1) as (c' & Hrtc & Hfin); [lia|].
    exists c'. split; [|done]. by eapply rtc_l.
Qed.

Lemma schedule_steps sched c : rtc (step base) c (schedule base sched c).
Proof.
  revert c. induction sched as [|i sched IH]; intros [m pool]; simpl; [done|].
  destruct (pool !! i) as [[[|k] g]|] eqn:Hi; [apply IH| |apply IH].
  eapply rtc_l; [|apply IH]. by apply (step_call base m pool i k g).
Qed.
End concurrent_names.

Section concurrent_name_claims.
Import Threads.

Lemma reachable_inv base m N M c :
  rtc (step base) (start m N M) c →
  names_inv base c ∧ pending c + length (received c) = N * M.
Proof.
  revert c. apply rtc_ind_r; [|intros c1 c2 _ Hstep [Hinv Hcount]].
  - split.
    + unfold names_inv. rewrite received_start.
      split; [constructor|]. intros x Hx. by apply elem_of_nil in Hx.
    + by rewrite pending_start, received_start, Nat.add_0_r.
  - split; [by eapply names_inv_step|].
    destruct (count_step _ _ _ Hstep) as [Hp Hl]. lia.
Qed.

(** C9: [N] threads that each ask for [M] names with the same base, their
    calls interleaved in any order: at every point of the run the names
    received so far are pairwise distinct; once every thread is done there are
    [N * M] of them; and every run can be carried to that end. *)
Theorem getUniqueFunctionName_concurrent
    (base : string) (m : gmap string Z) (N M : nat) (c : config) :
  rtc (step base) (start m N M) c →
  NoDup (received c)
  ∧ (finished c → length (received c) = N * M)
  ∧ ∃ c', rtc (step base) c c' ∧ finished c'.
Proof.
  intros Hrtc. destruct (reachable_inv _ _ _ _ _ Hrtc) as [[Hnd _] Hcount].
  split; [done|]. split.
  - intros Hfin. apply finished_pending_0 in Hfin. lia.
  - apply run_to_completion.
Qed.

Lemma getUniqueFunctionName_concurrent_witness :
  received (schedule "kernel" [0; 1; 1; 0] (start ∅ 2 2))
  = ["kernel"; "kernel_4"; "kernel_2"; "kernel_3"]
  ∧ NoDup (received (schedule "kernel" [0; 1; 1; 0] (start ∅ 2 2))).
Proof.
  split; [vm_compute; reflexivity|].
  apply (getUniqueFunctionName_concurrent "kernel" ∅ 2 2
           (schedule "kernel" [0; 1; 1; 0] (start ∅ 2 2))).
  apply schedule_steps.
Defined.
End concurrent_name_claims.

(** ** The instance cache *)

Section cache.
Import PytorchLLVMJITCache.

(** C3: the key is "triple:", the triple or nothing, "cpu:", the cpu or
    nothing, "attrs:", the attrs or nothing, and nothing else; so an absent
    field and an empty one give the same key, in each of the three fields. *)
Theorem getCacheKey_encoding :
  (∀ triple cpu attrs : option string,
     getCacheKey triple cpu attrs
     = "triple:" +:+ default "" triple +:+ "cpu:" +:+ default "" cpu
       +:+ "attrs:" +:+ default "" attrs)
  ∧ (∀ cpu attrs, getCacheKey None cpu attrs = getCacheKey (Some "") cpu attrs)
  ∧ (∀ triple attrs,
       getCacheKey triple None attrs = getCacheKey triple (Some "") attrs)
  ∧ (∀ triple cpu,
       getCacheKey triple cpu None = getCacheKey triple cpu (Some "")).
Proof.
  split; [|done].
  intros triple cpu attrs. unfold getCacheKey.
  rewrite !string_app_assoc. by destruct triple, cpu, attrs.
Qed.

Lemma cache_inv_init : cache_inv init.
Proof.
  split; [intros k p Hk|intros k1 k2 p Hk _]; simpl in Hk;
    by rewrite lookup_empty in Hk.
Qed.

Lemma get_inv E st d p st' :
  cache_inv st → get E st d = Some (p, st') →
  cache_inv st' ∧ jit_cache_ st ⊆ jit_cache_ st'
  ∧ jit_cache_ st' !! key_of d = Some p.
Proof.
  intros [Hdom Hinj].
  unfold get, getPytorchLLVMJITInstance, make_unique, key_of.
  destruct (jit_cache_ st !! getCacheKey (triple d) (cpu d) (attrs d))
    as [it|] eqn:Hit.
  { intros [= <- <-]. by repeat split. }
  destruct (PytorchLLVMJIT.create E _ _ _) as [jit|]; simpl; [|done].
  intros [= <- <-]. simpl.
  pose proof (is_fresh (dom (heap st))) as Hfresh.
  split; [split|split]; simpl.
  - intros k p. rewrite lookup_insert, dom_insert_L.
    case_decide; [intros [= <-]; set_solver|].
    intros Hk. apply Hdom in Hk. set_solver.
  - intros k1 k2 p. rewrite !lookup_insert.
    repeat case_decide; subst; try done.
    + intros [= <-] Hk. by apply Hdom in Hk.
    + intros Hk [= <-]. by apply Hdom in Hk.
    + apply Hinj.
  - by apply insert_subseteq.
  - by rewrite lookup_insert_eq.
Qed.

Lemma gets_inv E ds st ps st' :
  cache_inv st → gets E st ds = Some (ps, st') →
  cache_inv st' ∧ jit_cache_ st ⊆ jit_cache_ st'
  ∧ ∀ i d p, ds !! i = Some d → ps !! i = Some p →
             jit_cache_ st' !! key_of d = Some p.
Proof.
  revert st ps st'. induction ds as [|d ds IH]; intros st ps st' Hinv; simpl.
  { intros [= <- <-]. split; [done|]. split; [done|]. by intros i d p ?. }
  destruct (get E st d) as [[p st1]|] eqn:Hget; simpl; [|done].
  destruct (gets E st1 ds) as [[ps1 st2]|] eqn:Hgets; simpl; [|done].
  intros [= <- <-].
  destruct (get_inv _ _ _ _ _ Hinv Hget) as (Hinv1 & Hsub1 & Hp).
  destruct (IH _ _ _ Hinv1 Hgets) as (Hinv2 & Hsub2 & Hps).
  split; [done|]. split; [by etrans|].
  intros [|i] d' p'; simpl.
  - intros [= <-] [= <-]. by eapply lookup_weaken.
  - apply Hps.
Qed.
End cache.

Section cache_claims.
Import PytorchLLVMJITCache.

Example host_engine :
  fst <$> PytorchLLVMJITCache.gets Host.linux PytorchLLVMJITCache.init
     [mkTarget None None None; mkTarget (Some "aarch64") None None;
      mkTarget None None None]
  = Some [0%N; 1%N; 0%N].
Proof. vm_compute. reflexivity. Qed.

(** C1, as stated, fails: the descriptor with no field and the one whose
    cpu is the empty string differ in a field, and [get] returns the same
    engine for both. *)
Lemma get_shares_engine_across_descriptors :
  mkTarget None None None ≠ mkTarget None (Some "") None
  ∧ ∃ p st1 st2,
      get Host.linux init (mkTarget None None None) = Some (p, st1)
      ∧ get Host.linux st1 (mkTarget None (Some "") None) = Some (p, st2).
Proof.
  split; [discriminate|].
  eexists _, _, _. split; vm_compute; reflexivity.
Qed.

(** C1, amended: among the [get]s of a run, two with field-identical
    descriptors return the same engine, and two return the same engine
    exactly when their descriptors have the same cache key: descriptors with
    different keys get different engines. *)
Theorem get_same_engine_iff_same_key
    (E : Env) (ds : list TargetDescriptor) (ps : list addr) (st : state)
    (i j : nat) (di dj : TargetDescriptor) (pi pj : addr) :
  gets E init ds = Some (ps, st) →
  ds !! i = Some di → ds !! j = Some dj →
  ps !! i = Some pi → ps !! j = Some pj →
  (di = dj → pi = pj) ∧ (pi = pj ↔ key_of di = key_of dj).
Proof.
  intros Hgets Hdi Hdj Hpi Hpj.
  destruct (gets_inv _ _ _ _ _ cache_inv_init Hgets) as ([_ Hinj] & _ & Hps).
  pose proof (Hps _ _ _ Hdi Hpi) as Hi.
  pose proof (Hps _ _ _ Hdj Hpj) as Hj.
  assert (key_of di = key_of dj → pi = pj) as Hkey.
  { intros Heq. rewrite Heq in Hi. congruence. }
  split; [intros ->; by apply Hkey|]. split; [|done].
  intros ->. by eapply Hinj.
Qed.

Lemma get_same_engine_iff_same_key_witness :
  (mkTarget None None None = mkTarget None None None → 0%N = 0%N)
  ∧ (0%N = 0%N
     ↔ key_of (mkTarget None None None) = key_of (mkTarget None None None)).
Proof.
  apply (get_same_engine_iff_same_key Host.linux
           [mkTarget None None None; mkTarget (Some "aarch64") None None;
            mkTarget None None None]
           [0%N; 1%N; 0%N]
           (mk {[ 0%N := PytorchLLVMJIT.mk
                           (PytorchLLVMJITImpl.mk
                              (makeTargetMachineBuilder Host.linux None None None)
                              {[ "sinf" := 1001%N; "cosf" := 1002%N;
                                 "nnc_aten_conv2d" := 2001%N;
                                 "DispatchParallel" := 3001%N ]}
                              {[ "sinf"; "cosf" ]}) ∅;
                  1%N := PytorchLLVMJIT.mk
                           (PytorchLLVMJITImpl.mk
                              (makeTargetMachineBuilder Host.linux
                                 (Some "aarch64") None None)
                              {[ "sinf" := 1001%N; "cosf" := 1002%N;
                                 "nnc_aten_conv2d" := 2001%N;
                                 "DispatchParallel" := 3001%N ]}
                              {[ "sinf"; "cosf" ]}) ∅ ]}
               {[ "triple:cpu:attrs:" := 0%N;
                  "triple:aarch64cpu:attrs:" := 1%N ]})
           0 2 (mkTarget None None None) (mkTarget None None None) 0%N 0%N);
    vm_compute; reflexivity.
Defined.
End cache_claims.

(** ** Target machine configuration *)

Section target.
Example host_builder :
  makeTargetMachineBuilder Host.linux None None (Some "+AVX,,sse2,-fma")
  = mkJTMB "x86_64-unknown-linux-gnu" "skylake" ["+avx"; "+sse2"; "-fma"]
      (Some CodeGenOpt_Default) FPOpFusion_Fast.
Proof. vm_compute. reflexivity. Qed.

(** C2, as stated, fails: with a triple supplied and no cpu and no attrs,
    the builder's CPU is not the host's CPU name and its features are not
    the host's. *)
Lemma makeTargetMachineBuilder_triple_leaves_cpu_unset :
  CPU (makeTargetMachineBuilder Host.linux (Some "aarch64-linux-gnu") None None)
  ≠ resolved_cpu Host.linux None
  ∧ Features
      (makeTargetMachineBuilder Host.linux (Some "aarch64-linux-gnu") None None)
    ≠ resolved_features Host.linux None
  ∧ CPU (makeTargetMachineBuilder Host.linux (Some "aarch64-linux-gnu")
           None None) = ""
  ∧ resolved_cpu Host.linux None = "skylake".
Proof. repeat split; vm_compute; (reflexivity || discriminate). Qed.

(** C2, amended: the triple is the supplied one, or the host's when absent;
    a supplied cpu is used and a supplied attrs string is parsed into the
    features, whatever the other fields are; an absent cpu becomes the host's
    CPU name and absent attrs the host's features when the triple is absent
    too; with a triple supplied, an absent cpu leaves the CPU unset and absent
    attrs leave the features empty. *)
Theorem makeTargetMachineBuilder_resolution
    (E : Env) (triple cpu attrs : option string) :
  TT (makeTargetMachineBuilder E triple cpu attrs) = resolved_triple E triple
  ∧ CPU (makeTargetMachineBuilder E triple cpu attrs)
    = match cpu, triple with
      | Some c, _ => c
      | None, None => getHostCPUName E
      | None, Some _ => ""
      end
  ∧ Features (makeTargetMachineBuilder E triple cpu attrs)
    = match attrs, triple with
      | Some a, _ => features_of E (Split E a)
      | None, None => features_of E (getHostSubtargetFeatures E)
      | None, Some _ => []
      end.
Proof. by destruct triple, cpu, attrs. Qed.
End target.

(** ** Symbol registration *)

Section symbols.
Variable E : Env.

Lemma SymbolMap_insert_union kv (m : gmap string addr) :
  SymbolMap.insert kv m = m ∪ {[ kv.1 := kv.2 ]}.
Proof.
  unfold SymbolMap.insert. apply map_eq. intros k.
  destruct (m !! kv.1) as [a|] eqn:Hkv; rewrite lookup_union.
  - destruct (decide (k = kv.1)) as [->|Hne].
    + by rewrite Hkv, lookup_singleton_eq.
    + rewrite lookup_singleton_ne by done. by destruct (m !! k).
  - destruct (decide (k = kv.1)) as [->|Hne].
    + by rewrite lookup_insert_eq, Hkv, lookup_singleton_eq.
    + rewrite lookup_insert_ne, lookup_singleton_ne by done.
      by destruct (m !! k).
Qed.

Lemma static_loop l (symbols : gmap string addr) (intrinsics : gset string) :
  foldl (λ '(symbols, intrinsics) sym,
           (SymbolMap.insert (Mangle E sym.1, sym.2) symbols,
            {[ sym.1 ]} ∪ intrinsics))
        (symbols, intrinsics) l
  = (symbols ∪ list_to_map (mangled E l), list_to_set l.*1 ∪ intrinsics).
Proof.
  revert symbols intrinsics. induction l as [|sym l IH]; intros symbols ins.
  { simpl. f_equal; [by rewrite (right_id_L ∅ (∪))|].
    by rewrite (left_id_L ∅ (∪)). }
  simpl. rewrite IH, SymbolMap_insert_union. simpl. f_equal.
  - by rewrite <-(assoc_L (∪)), <-insert_union_singleton_l.
  - by rewrite (assoc_L (∪)), (comm_L (∪) (list_to_set _)).
Qed.

Lemma define_Some (JD MU JD' : gmap string addr) :
  JITDylib.define JD MU = Some JD' ↔ JD ##ₘ MU ∧ JD' = JD ∪ MU.
Proof.
  unfold JITDylib.define. case_decide; split.
  - by intros [= <-].
  - by intros [_ ->].
  - done.
  - by intros [? _].
Qed.

Lemma defineEach_Some kvs (JD JD' : gmap string addr) :
  defineEach E JD kvs = Some JD' →
  JD ⊆ JD' ∧ ∀ kv, kv ∈ kvs → JD !! Mangle E kv.1 = None.
Proof.
  revert JD. induction kvs as [|kv kvs IH]; intros JD; simpl.
  { intros [= <-]. split; [done|]. by intros kv ?%elem_of_nil. }
  destruct (JITDylib.define JD _) as [JD1|] eqn:Hdef; simpl; [|done].
  apply define_Some in Hdef as [Hdisj ->]. intros Hrest.
  destruct (IH _ Hrest) as [Hsub Hfree].
  apply map_disjoint_singleton_r in Hdisj.
  split.
  - etrans; [|done]. by apply map_union_subseteq_l.
  - intros kv' [->|Hin]%elem_of_cons; [done|].
    specialize (Hfree _ Hin). by apply lookup_union_None in Hfree as [? _].
Qed.

(** What a successful registration leaves behind. *)
Lemma registerIntrinsics_Some JD0 ins0 JD intrinsics :
  registerIntrinsics E JD0 ins0 = Some (JD, intrinsics) →
  intrinsics = list_to_set (getIntrinsicSymbols E).*1 ∪ ins0
  ∧ JD0 ∪ list_to_map (mangled E (getIntrinsicSymbols E)) ⊆ JD
  ∧ ∀ kv, kv ∈ getNNCFunctionRegistry E →
          (JD0 ∪ list_to_map (mangled E (getIntrinsicSymbols E))
             : gmap string addr)
            !! Mangle E kv.1 = None.
Proof.
  unfold registerIntrinsics. rewrite static_loop.
  rewrite (left_id_L ∅ (∪)).
  destruct (JITDylib.define JD0 _) as [JD1|] eqn:Hdef1; simpl; [|done].
  apply define_Some in Hdef1 as [_ ->].
  destruct (defineEach E _ _) as [JD2|] eqn:Heach; simpl; [|done].
  apply defineEach_Some in Heach as [Hsub Hfree].
  destruct (JITDylib.define JD2 _) as [JD3|] eqn:Hdef3; simpl; [|done].
  apply define_Some in Hdef3 as [_ ->]. intros [= <- <-].
  split; [done|]. split; [|done].
  etrans; [done|]. by apply map_union_subseteq_l.
Qed.

Lemma mangled_lookup_is_Some l name :
  name ∈ l.*1 →
  is_Some ((list_to_map (mangled E l) : gmap string addr) !! Mangle E name).
Proof.
  intros Hin. apply not_eq_None_Some. intros Hnone.
  apply not_elem_of_list_to_map in Hnone. apply Hnone.
  unfold mangled. rewrite <-list_fmap_compose.
  apply list_elem_of_fmap in Hin as (sym & -> & Hsym).
  apply list_elem_of_fmap. by exists sym.
Qed.

(** The address the first entry under a key carries is the one a map built
    from the list holds. *)
Lemma list_to_map_first (l : list (string * addr)) i k a :
  l !! i = Some (k, a) →
  (∀ j kv, j < i → l !! j = Some kv → kv.1 ≠ k) →
  (list_to_map l : gmap string addr) !! k = Some a.
Proof.
  revert i. induction l as [|[k0 a0] l IH]; intros i Hi Hfirst; [done|].
  destruct i as [|i]; simpl in *.
  - injection Hi as -> ->. by rewrite lookup_insert_eq.
  - rewrite lookup_insert_ne.
    + apply (IH i); [done|]. intros j kv Hj. apply (Hfirst (S j)). lia.
    + apply (Hfirst 0 (k0, a0)); [lia|done].
Qed.
End symbols.

Section symbol_claims.

Example linux_engine :
  PytorchLLVMJIT.create Host.linux None None None = Some (Host.engine None).
Proof. vm_compute. reflexivity. Qed.

(** C6: on a constructed engine, [hasSymbol] is true exactly for the names
    of the static intrinsic list, so it is false for a name only the
    external-function registry has and for any other name; and [findSymbol]
    succeeds on every name of the static list. *)
Theorem hasSymbol_iff_intrinsic
    (E : Env) (triple cpu attrs : option string) (jit : PytorchLLVMJIT.t) :
  PytorchLLVMJIT.create E triple cpu attrs = Some jit →
  (∀ name, PytorchLLVMJIT.hasSymbol jit name = true
           ↔ name ∈ (getIntrinsicSymbols E).*1)
  ∧ (∀ name, name ∉ (getIntrinsicSymbols E).*1 →
             PytorchLLVMJIT.hasSymbol jit name = false)
  ∧ (∀ name, name ∈ (getIntrinsicSymbols E).*1 →
             is_Some (PytorchLLVMJIT.findSymbol E jit name)).
Proof.
  unfold PytorchLLVMJIT.create, PytorchLLVMJITImpl.create.
  destruct (createTargetMachine E _); simpl; [|done].
  destruct (registerIntrinsics E ∅ ∅) as [[JD ins]|] eqn:Hreg; simpl; [|done].
  intros [= <-].
  apply registerIntrinsics_Some in Hreg as (-> & Hsub & _).
  unfold PytorchLLVMJIT.hasSymbol, PytorchLLVMJITImpl.hasSymbol,
    PytorchLLVMJIT.findSymbol, PytorchLLVMJITImpl.findSymbol. simpl.
  assert (∀ name, name ∈ list_to_set (C:=gset string) (getIntrinsicSymbols E).*1 ∪ ∅
                  ↔ name ∈ (getIntrinsicSymbols E).*1) as Hmem.
  { intros name. by rewrite (right_id_L ∅ (∪)), elem_of_list_to_set. }
  split; [|split].
  - intros name. by rewrite bool_decide_eq_true, Hmem.
  - intros name Hname. by rewrite bool_decide_eq_false, Hmem.
  - intros name Hname.
    destruct (mangled_lookup_is_Some E _ _ Hname) as [a Ha].
    erewrite (lookup_weaken _ JD (Mangle E name) a); [done| |done].
    by rewrite lookup_union_r by apply lookup_empty.
Qed.

Lemma hasSymbol_iff_intrinsic_witness :
  (∀ name, PytorchLLVMJIT.hasSymbol (Host.engine None) name = true
           ↔ name ∈ ["sinf"; "cosf"])
  ∧ (∀ name, name ∉ ["sinf"; "cosf"] →
             PytorchLLVMJIT.hasSymbol (Host.engine None) name = false)
  ∧ (∀ name, name ∈ ["sinf"; "cosf"] →
             is_Some (PytorchLLVMJIT.findSymbol Host.linux (Host.engine None)
                        name)).
Proof.
  apply (hasSymbol_iff_intrinsic Host.linux None None None (Host.engine None)).
  vm_compute. reflexivity.
Defined.

(** C7, as stated, fails: with "sinf" both in the static list and in the
    registry the registration does not succeed, and no engine is built; with
    "sinf" twice in the static list the engine resolves it to the first
    address listed, not the last. *)
Lemma registerIntrinsics_duplicate_not_last :
  registerIntrinsics Host.linux_clash ∅ ∅ = None
  ∧ PytorchLLVMJIT.create Host.linux_clash None None None = None
  ∧ (jit ← PytorchLLVMJIT.create Host.linux_twice None None None;
     PytorchLLVMJIT.findSymbol Host.linux_twice jit "sinf") = Some 1001%N
  ∧ last (getIntrinsicSymbols Host.linux_twice) = Some ("sinf", 1003%N).
Proof. repeat split; vm_compute; reflexivity. Qed.

(** C7, amended: a name that is both in the static list and in the
    registry makes the registration fail; when the registration succeeds, a
    name of the static list resolves to the address of its first entry
    there. *)
Theorem registerIntrinsics_duplicates (E : Env) :
  (∀ JD intrinsics name a1 a2,
     (name, a1) ∈ getIntrinsicSymbols E →
     (name, a2) ∈ getNNCFunctionRegistry E →
     registerIntrinsics E JD intrinsics = None)
  ∧ (∀ JD intrinsics i name a,
       registerIntrinsics E ∅ ∅ = Some (JD, intrinsics) →
       getIntrinsicSymbols E !! i = Some (name, a) →
       (∀ j sym, j < i → getIntrinsicSymbols E !! j = Some sym →
                 Mangle E sym.1 ≠ Mangle E name) →
       JD !! Mangle E name = Some a).
Proof.
  split.
  - intros JD ins name a1 a2 Hstatic Hreg.
    destruct (registerIntrinsics E JD ins) as [[JD' ins']|] eqn:Hr; [|done].
    apply registerIntrinsics_Some in Hr as (_ & _ & Hfree).
    specialize (Hfree _ Hreg). simpl in Hfree.
    apply lookup_union_None in Hfree as [_ Hnone].
    destruct (mangled_lookup_is_Some E (getIntrinsicSymbols E) name) as [a Ha].
    { apply list_elem_of_fmap. by exists (name, a1). }
    by rewrite Ha in Hnone.
  - intros JD ins i name a Hr Hi Hfirst.
    apply registerIntrinsics_Some in Hr as (_ & Hsub & _).
    eapply lookup_weaken; [|done].
    rewrite lookup_union_r by apply lookup_empty.
    apply (list_to_map_first _ i).
    + unfold mangled. by rewrite list_lookup_fmap, Hi.
    + intros j kv Hj. unfold mangled. rewrite list_lookup_fmap.
      destruct (getIntrinsicSymbols E !! j) as [sym|] eqn:Hsym; [|done].
      intros [= <-]. simpl. by eapply Hfirst.
Qed.

Lemma registerIntrinsics_duplicates_witness :
  registerIntrinsics Host.linux_clash ∅ ∅ = None
  ∧ ({[ "sinf" := 1001%N; "cosf" := 1002%N; "nnc_aten_conv2d" := 2001%N;
        "DispatchParallel" := 3001%N ]} : gmap string addr) !! "sinf"
    = Some 1001%N.
Proof.
  split.
  - apply (proj1 (registerIntrinsics_duplicates Host.linux_clash)
             ∅ ∅ "sinf" 1001%N 2002%N);
      apply list_elem_of_In; simpl; auto.
  - apply (proj2 (registerIntrinsics_duplicates Host.linux_twice)
             _ {[ "sinf"; "cosf" ]} 0 "sinf" 1001%N).
    + vm_compute. reflexivity.
    + reflexivity.
    + intros j sym Hj. lia.
Defined.
End symbol_claims.

(** ** Call arguments *)

Section call_args.
Import CallArg.

Lemma byte_of_Z_to_N (z : Z) :
  Z.of_N (Byte.to_N (byte_of_Z z)) = (z `mod` 256)%Z.
Proof.
  unfold byte_of_Z.
  pose proof (Z.mod_pos_bound z 256 ltac:(lia)) as Hbound.
  pose proof (Byte.to_of_N_option_map (Z.to_N (z `mod` 256))) as Hopt.
  destruct (Byte.of_N (Z.to_N (z `mod` 256))) as [b|]; simpl in *.
  - destruct (N.leb_spec (Z.to_N (z `mod` 256)) 255); [|done].
    injection Hopt as ->. lia.
  - destruct (N.leb_spec (Z.to_N (z `mod` 256)) 255); [done|lia].
Qed.

Lemma to_bytes_length (n : nat) (v : Z) : length (to_bytes n v) = n.
Proof. revert v. induction n as [|n IH]; intros v; simpl; [done|]. by rewrite IH. Qed.

Lemma of_bytes_to_bytes (n : nat) (v : Z) :
  of_bytes (to_bytes n v) = (v `mod` 2 ^ (8 * Z.of_nat n))%Z.
Proof.
  revert v. induction n as [|n IH]; intros v.
  { simpl. by rewrite Z.mod_1_r. }
  cbn [to_bytes of_bytes]. rewrite byte_of_Z_to_N, IH.
  replace (8 * Z.of_nat (S n))%Z with (8 + 8 * Z.of_nat n)%Z by lia.
  rewrite Z.pow_add_r by lia. change (2 ^ 8)%Z with 256%Z.
  rewrite Z.rem_mul_r by lia. done.
Qed.

Lemma memcpy_take (dst src : list Byte.byte) (n : nat) :
  length src = n → take n (memcpy dst src n) = src.
Proof.
  intros <-. unfold memcpy. rewrite firstn_all.
  by rewrite take_app_length.
Qed.

Lemma memcpy_length (dst src : list Byte.byte) (n : nat) :
  length src = n → n ≤ length dst → length (memcpy dst src n) = length dst.
Proof.
  intros <- Hle. unfold memcpy.
  rewrite firstn_all, length_app, length_drop. lia.
Qed.

Lemma mod_small_or_wrap (v m : Z) :
  (0 < m)%Z → (- m ≤ v < m)%Z →
  (v `mod` m)%Z = if decide (0 ≤ v)%Z then v else (v + m)%Z.
Proof.
  intros Hm Hv. case_decide.
  - by apply Z.mod_small; lia.
  - symmetry. apply (Z.mod_unique v m (-1)); lia.
Qed.

Lemma load_to_bytes (K : ScalarType) (v : Z) :
  value_of K v → load K (to_bytes (sizeof K) v) = v.
Proof.
  intros Hv. unfold load. rewrite of_bytes_to_bytes.
  destruct K; simpl in *; eval_pow2;
    rewrite mod_small_or_wrap by lia;
    repeat case_decide; try case_bool_decide; lia.
Qed.

(** C5: a cell built from a value of any of the ten scalar kinds reads
    back, through the accessor of that kind, as the same value; the cell
    still has the size of a pointer. *)
Theorem CallArg_round_trip (K : ScalarType) (v : Z) (uninit : t) :
  length (data_ uninit) = sizeof_ptr →
  value_of K v →
  deref_Ptr K (ctor K v uninit) = v
  ∧ length (data_ (ctor K v uninit)) = sizeof_ptr.
Proof.
  intros Hlen Hv. unfold deref_Ptr, ctor. simpl. split.
  - rewrite memcpy_take by apply to_bytes_length. by apply load_to_bytes.
  - rewrite memcpy_length; [done|apply to_bytes_length|].
    rewrite Hlen. unfold sizeof_ptr. destruct K; simpl; lia.
Qed.

Lemma CallArg_round_trip_witness :
  deref_Ptr Long
    (ctor Long (-9223372036854775808) (mk (replicate 8 Byte.xa5)))
  = (-9223372036854775808)%Z
  ∧ length (data_ (ctor Long (-9223372036854775808)
                     (mk (replicate 8 Byte.xa5)))) = sizeof_ptr.
Proof.
  apply (CallArg_round_trip Long (-9223372036854775808)
           (mk (replicate 8 Byte.xa5))).
  - reflexivity.
  - unfold value_of. simpl. lia.
Defined.

Example CallArg_samples :
  deref_Ptr Char (ctor Char (-128) (mk (replicate 8 Byte.xa5))) = (-128)%Z
  ∧ deref_Ptr Byte (ctor Byte 255 (mk (replicate 8 Byte.xa5))) = 255%Z
  ∧ deref_Ptr Short (ctor Short (-1) (mk (replicate 8 Byte.xa5))) = (-1)%Z
  ∧ deref_Ptr Int (ctor Int 2147483647 (mk (replicate 8 Byte.xa5)))
    = 2147483647%Z
  ∧ deref_Ptr Bool (ctor Bool 1 (mk (replicate 8 Byte.xa5))) = 1%Z
  ∧ deref_Ptr Half (ctor Half 0 (mk (replicate 8 Byte.xa5))) = 0%Z
  ∧ data_ (ctor Int (-2) (mk (replicate 8 Byte.xa5)))
    = [Byte.xfe; Byte.xff; Byte.xff; Byte.xff;
       Byte.xa5; Byte.xa5; Byte.xa5; Byte.xa5].
Proof. repeat split; vm_compute; reflexivity. Qed.
End call_args.

(** ** The CUDA hooks *)

Section primary_context.
Import CUDAHooks.

Variable c : Cuda.


Lemma hasPrimaryContext_true i :
  hasPrimaryContext c i = Returns true ↔ active_device c i.
Proof.
  unfold hasPrimaryContext, CUDAHooks.active_device.
  case_bool_decide as Hr.
  - destruct (cuDevicePrimaryCtxGetState c i) as [a|].
    + case_bool_decide as Ha; split.
      * intros _. split; [lia|by subst].
      * done.
      * done.
      * intros [_ [= ->]]. done.
    + split; [done|]. by intros [_ ?].
  - split; [done|]. intros [? _]. lia.
Qed.

Lemma hasPrimaryContext_false i :
  hasPrimaryContext c i = Returns false → ¬ active_device c i.
Proof. intros Hf Ha. apply hasPrimaryContext_true in Ha. congruence. Qed.

Lemma scan_devices_Some cur i n k :
  scan_devices c cur i n = Returns (Some k) →
  (i ≤ k < i + Z.of_nat n)%Z ∧ k ≠ cur ∧ active_device c k
  ∧ ∀ j, (i ≤ j < k)%Z → j ≠ cur → ¬ active_device c j.
Proof.
  revert i. induction n as [|n IH]; intros i; simpl; [done|].
  assert (scan_devices c cur (i + 1) n = Returns (Some k) →
          (i ≤ k < i + Z.of_nat (S n))%Z ∧ k ≠ cur ∧ active_device c k
          ∧ ∀ j, (i ≤ j < k)%Z → j ≠ cur → j ≠ i → ¬ active_device c j)
    as Hrest.
  { intros (Hk & Hne & Ha & Hlow)%IH.
    split; [lia|]. split; [done|]. split; [done|].
    intros j Hj Hjc Hji. apply Hlow; [lia|done]. }
  case_decide as Hcur.
  { intros (Hk & Hne & Ha & Hlow)%Hrest.
    split; [done|]. split; [done|]. split; [done|].
    intros j Hj Hjc. apply Hlow; [done..|congruence]. }
  destruct (hasPrimaryContext c i) as [[|]|] eqn:Hi; [| |done].
  - intros [= <-]. apply hasPrimaryContext_true in Hi.
    split; [lia|]. split; [done|]. split; [done|]. intros j Hj. lia.
  - intros (Hk & Hne & Ha & Hlow)%Hrest.
    split; [done|]. split; [done|]. split; [done|].
    intros j Hj Hjc. destruct (decide (j = i)) as [->|Hji].
    + by apply hasPrimaryContext_false.
    + by apply Hlow.
Qed.

Lemma scan_devices_None cur i n :
  scan_devices c cur i n = Returns None →
  ∀ j, (i ≤ j < i + Z.of_nat n)%Z → j ≠ cur → ¬ active_device c j.
Proof.
  revert i. induction n as [|n IH]; intros i; simpl; [intros _ j; lia|].
  case_decide as Hcur.
  { intros Hn j ? ?. apply (IH _ Hn); [|done]. lia. }
  destruct (hasPrimaryContext c i) as [[|]|] eqn:Hi; [done| |done].
  intros Hn j ? ?. destruct (decide (j = i)) as [->|].
  - by apply hasPrimaryContext_false.
  - apply (IH _ Hn); [lia|done].
Qed.

Lemma scan_devices_no_throw cur i n :
  (∀ j, (i ≤ j < i + Z.of_nat n)%Z → hasPrimaryContext c j ≠ Throws) →
  scan_devices c cur i n ≠ Throws.
Proof.
  revert i. induction n as [|n IH]; intros i Hok; simpl; [done|].
  assert (scan_devices c cur (i + 1) n ≠ Throws) as Hrest.
  { apply IH. intros j ?. apply Hok. lia. }
  case_decide; [done|].
  destruct (hasPrimaryContext c i) as [[|]|] eqn:Hi; [done..|].
  exfalso. apply (Hok i); [lia|done].
Qed.

(** The current device was asked first and had no active context, or there
    is no current device to ask. *)
Lemma current_checked :
  (if bool_decide (0 ≤ current_device c)%Z
   then hasPrimaryContext c (current_device c)
   else Returns false) = Returns false →
  ¬ active_device c (current_device c).
Proof.
  case_bool_decide; [apply hasPrimaryContext_false|].
  intros _ [? _]. lia.
Qed.

(** X1: a device index that [getDeviceIndexWithPrimaryContext] returns is
    that of an existing device whose primary context is active. *)
Theorem getDeviceIndexWithPrimaryContext_sound (i : Z) :
  getDeviceIndexWithPrimaryContext c = Returns (Some i) → active_device c i.
Proof.
  unfold getDeviceIndexWithPrimaryContext.
  destruct (if bool_decide _ then _ else _) as [[|]|] eqn:Hcur; [| |done].
  - intros [= <-]. case_bool_decide; [|done].
    by apply hasPrimaryContext_true.
  - by intros (_ & _ & ? & _)%scan_devices_Some.
Qed.

(** X2: when the current device has an active primary context, it is the
    one returned, whatever the other devices are. *)
Theorem getDeviceIndexWithPrimaryContext_prefers_current (d : Z) :
  cudaGetDevice c = Some d → active_device c d →
  getDeviceIndexWithPrimaryContext c = Returns (Some d).
Proof.
  intros Hd Ha. unfold getDeviceIndexWithPrimaryContext, current_device.
  rewrite Hd. destruct Ha as [Hr Hs].
  rewrite bool_decide_eq_true_2 by lia.
  assert (hasPrimaryContext c d = Returns true) as ->; [|done].
  by apply hasPrimaryContext_true.
Qed.

(** X3: when no index is returned, no existing device has an active
    primary context. *)
Theorem getDeviceIndexWithPrimaryContext_none (i : Z) :
  getDeviceIndexWithPrimaryContext c = Returns None → ¬ active_device c i.
Proof.
  unfold getDeviceIndexWithPrimaryContext.
  destruct (if bool_decide _ then _ else _) as [[|]|] eqn:Hcur; [done| |done].
  intros Hscan. destruct (decide (i = current_device c)) as [->|Hne].
  - by apply current_checked.
  - intros Ha. apply (scan_devices_None _ _ _ Hscan i); [|done..].
    destruct Ha as [? _]. lia.
Qed.

(** X4: a returned device other than the current one is the lowest
    numbered device with an active primary context: every lower-numbered
    device, and the current device wherever it is numbered, has none. *)
Theorem getDeviceIndexWithPrimaryContext_lowest (i : Z) :
  getDeviceIndexWithPrimaryContext c = Returns (Some i) →
  cudaGetDevice c ≠ Some i →
  (∀ j, (j < i)%Z → ¬ active_device c j)
  ∧ (∀ d, cudaGetDevice c = Some d → ¬ active_device c d).
Proof.
  unfold getDeviceIndexWithPrimaryContext.
  destruct (if bool_decide _ then _ else _) as [[|]|] eqn:Hcur; [| |done].
  - intros [= <-] Hne. case_bool_decide as Hpos; [|done].
    unfold current_device in *. destruct (cudaGetDevice c); [done|lia].
  - intros (? & ? & ? & Hlow)%scan_devices_Some _.
    apply current_checked in Hcur. split.
    + intros j Hj. destruct (decide (j = current_device c)) as [->|Hne].
      * done.
      * intros Ha. apply (Hlow j); [|done..]. destruct Ha as [? _]. lia.
    + intros d Hd. unfold current_device in Hcur. by rewrite Hd in Hcur.
Qed.

(** X5: when the runtime's current device exists and the driver answers
    for every existing device, the search does not throw. *)
Theorem getDeviceIndexWithPrimaryContext_no_throw :
  (∀ d, cudaGetDevice c = Some d → (d < device_count c)%Z) →
  (∀ i, (0 ≤ i < device_count c)%Z →
        is_Some (cuDevicePrimaryCtxGetState c i)) →
  getDeviceIndexWithPrimaryContext c ≠ Throws.
Proof.
  intros Hcur Hdrv.
  assert (∀ i, (0 ≤ i < device_count c)%Z → hasPrimaryContext c i ≠ Throws)
    as Hok.
  { intros i Hi. unfold hasPrimaryContext.
    rewrite bool_decide_eq_true_2 by lia.
    by destruct (Hdrv i Hi) as [a ->]. }
  unfold getDeviceIndexWithPrimaryContext.
  destruct (if bool_decide _ then _ else _) as [[|]|] eqn:Hc; [done| |].
  - apply scan_devices_no_throw. intros j ?. apply Hok. lia.
  - case_bool_decide as Hpos; [|done]. exfalso. apply (Hok (current_device c)); [|done].
    unfold current_device in *. destruct (cudaGetDevice c) as [d|] eqn:Hd; [|lia].
    split; [done|]. by apply Hcur.
Qed.
End primary_context.

Section primary_context_witnesses.
Import CUDAHooks.

Example two_gpus_search :
  getDeviceIndexWithPrimaryContext two_gpus = Returns (Some 0%Z).
Proof. vm_compute. reflexivity. Qed.

Lemma getDeviceIndexWithPrimaryContext_sound_witness :
  active_device two_gpus 0.
Proof.
  apply (getDeviceIndexWithPrimaryContext_sound two_gpus 0).
  vm_compute. reflexivity.
Defined.

Lemma getDeviceIndexWithPrimaryContext_prefers_current_witness :
  getDeviceIndexWithPrimaryContext (mkCuda 2 (Some 1%Z) (λ _, Some 1%Z))
  = Returns (Some 1%Z).
Proof.
  apply (getDeviceIndexWithPrimaryContext_prefers_current
           (mkCuda 2 (Some 1%Z) (λ _, Some 1%Z)) 1).
  - reflexivity.
  - split; [simpl; lia|reflexivity].
Defined.

Lemma getDeviceIndexWithPrimaryContext_none_witness :
  ¬ active_device (mkCuda 2 (Some 1%Z) (λ _, Some 0%Z)) 0.
Proof.
  apply (getDeviceIndexWithPrimaryContext_none
           (mkCuda 2 (Some 1%Z) (λ _, Some 0%Z)) 0).
  vm_compute. reflexivity.
Defined.

Lemma getDeviceIndexWithPrimaryContext_lowest_witness :
  (∀ j, (j < 1)%Z →
        ¬ active_device
            (mkCuda 3 (Some 2%Z)
               (λ i, if decide (i = 1%Z) then Some 1%Z else Some 0%Z)) j)
  ∧ (∀ d, Some 2%Z = Some d →
          ¬ active_device
              (mkCuda 3 (Some 2%Z)
                 (λ i, if decide (i = 1%Z) then Some 1%Z else Some 0%Z)) d).
Proof.
  apply (getDeviceIndexWithPrimaryContext_lowest
           (mkCuda 3 (Some 2%Z)
              (λ i, if decide (i = 1%Z) then Some 1%Z else Some 0%Z)) 1).
  - vm_compute. reflexivity.
  - discriminate.
Defined.

Lemma getDeviceIndexWithPrimaryContext_no_throw_witness :
  getDeviceIndexWithPrimaryContext two_gpus ≠ Throws.
Proof.
  apply (getDeviceIndexWithPrimaryContext_no_throw two_gpus).
  - intros d [= <-]. simpl. lia.
  - intros i _. simpl. case_decide; eauto.
Defined.
End primary_context_witnesses.

(** ** Characters of decimal numbers, and splitting at a separator *)

Section characters.
Lemma all_chars_app P (s1 s2 : string) :
  all_chars P (s1 +:+ s2) = all_chars P s1 && all_chars P s2.
Proof.
  induction s1 as [|a s1 IH]; [done|].
  change (P a && all_chars P (s1 +:+ s2)
          = P a && all_chars P s1 && all_chars P s2).
  rewrite IH. by destruct (P a).
Qed.

Lemma all_chars_impl (P Q : ascii → bool) (s : string) :
  (∀ a, P a = true → Q a = true) → all_chars P s = true → all_chars Q s = true.
Proof.
  intros HPQ. induction s as [|a s IH]; simpl; [done|].
  intros [Ha Hs]%andb_true_iff. apply andb_true_iff. auto.
Qed.

Lemma lacks_cons_eq c s : lacks c (String c s) = false.
Proof. unfold lacks. simpl. by rewrite Ascii.eqb_refl. Qed.

Lemma lacks_cons c a s : lacks c (String a s) = true → a ≠ c ∧ lacks c s = true.
Proof.
  unfold lacks. simpl. intros [Ha Hs]%andb_true_iff. split; [|done].
  intros ->. by rewrite Ascii.eqb_refl in Ha.
Qed.

Lemma lacks_app c s1 s2 :
  lacks c (s1 +:+ s2) = true ↔ lacks c s1 = true ∧ lacks c s2 = true.
Proof. unfold lacks. by rewrite all_chars_app, andb_true_iff. Qed.

(** The text before the first separator and the text after it. *)
Lemma split_first_sep c (s1 s2 r1 r2 : string) :
  lacks c s1 = true → lacks c s2 = true →
  s1 +:+ String c r1 = s2 +:+ String c r2 → s1 = s2 ∧ r1 = r2.
Proof.
  revert s2. induction s1 as [|a s1 IH]; intros [|b s2] H1 H2 Heq.
  - by injection Heq as ->.
  - injection Heq as <- _. by rewrite lacks_cons_eq in H2.
  - injection Heq as -> _. by rewrite lacks_cons_eq in H1.
  - apply lacks_cons in H1 as [_ H1]. apply lacks_cons in H2 as [_ H2].
    injection Heq as -> Heq. destruct (IH _ H1 H2 Heq) as [-> ->]. done.
Qed.

(** The text before the last separator and the text after it. *)
Lemma split_last_sep c (s1 s2 r1 r2 : string) :
  lacks c r1 = true → lacks c r2 = true →
  s1 +:+ String c r1 = s2 +:+ String c r2 → s1 = s2 ∧ r1 = r2.
Proof.
  intros H1 H2. revert s2. induction s1 as [|a s1 IH]; intros [|b s2] Heq.
  - by injection Heq as ->.
  - injection Heq as _ Heq. rewrite Heq in H1.
    apply lacks_app in H1 as [_ H1]. by rewrite lacks_cons_eq in H1.
  - injection Heq as _ Heq. rewrite <-Heq in H2.
    apply lacks_app in H2 as [_ H2]. by rewrite lacks_cons_eq in H2.
  - injection Heq as -> Heq. destruct (IH _ Heq) as [-> ->]. done.
Qed.

Lemma string_app_inj_r (s1 s2 u : string) : s1 +:+ u = s2 +:+ u → s1 = s2.
Proof.
  revert s2. induction s1 as [|a s1 IH]; intros [|b s2] Heq.
  - done.
  - apply (f_equal String.length) in Heq.
    rewrite !string_length_app in Heq. simpl in Heq. lia.
  - apply (f_equal String.length) in Heq.
    rewrite !string_length_app in Heq. simpl in Heq. lia.
  - injection Heq as -> Heq. by rewrite (IH _ Heq).
Qed.

Lemma pretty_N_char_digit x : is_digit (pretty_N_char x) = true.
Proof. unfold pretty_N_char. by repeat case_match. Qed.

Lemma pretty_N_go_digits x s :
  all_chars is_digit s = true → all_chars is_digit (pretty_N_go x s) = true.
Proof.
  revert s. induction (N.lt_wf_0 x) as [x _ IH]; intros s Hs.
  destruct (decide (x = 0%N)) as [->|Hx]; [by rewrite pretty_N_go_0|].
  rewrite pretty_N_go_step by lia. apply IH.
  - apply N.div_lt; lia.
  - simpl. by rewrite pretty_N_char_digit.
Qed.

Lemma pretty_Z_digits (z : Z) :
  (0 ≤ z)%Z → all_chars is_digit (pretty z) = true.
Proof.
  destruct z as [|p|p]; [done| |lia]. intros _.
  unfold pretty, pretty_Z, pretty, pretty_positive, pretty, pretty_N.
  case_decide; [done|]. by apply pretty_N_go_digits.
Qed.

Lemma digits_lack c s :
  is_digit c = false → all_chars is_digit s = true → lacks c s = true.
Proof.
  intros Hc. apply all_chars_impl. intros a Ha.
  destruct (Ascii.eqb_spec a c) as [->|]; [congruence|done].
Qed.
End characters.

(** ** Version texts *)

Section versions.
Import CUDAHooks.

Lemma quot_rem_parts (v a b : Z) :
  (0 < a)%Z → (0 < b)%Z → (0 ≤ v)%Z →
  (0 ≤ Z.quot v (a * b))%Z
  ∧ (0 ≤ Z.rem (Z.quot v a) b < b)%Z
  ∧ (0 ≤ Z.rem v a < a)%Z
  ∧ v = (a * b * Z.quot v (a * b) + a * Z.rem (Z.quot v a) b + Z.rem v a)%Z.
Proof.
  intros Ha Hb Hv.
  rewrite !Z.quot_div_nonneg, !Z.rem_mod_nonneg
    by (try apply Z.div_pos; lia).
  pose proof (Z.mod_pos_bound v a Ha).
  pose proof (Z.mod_pos_bound (v `div` a) b Hb).
  pose proof (Z.div_pos v (a * b) Hv ltac:(lia)).
  rewrite <-Z.div_div by lia.
  pose proof (Z.div_mod v a ltac:(lia)).
  pose proof (Z.div_mod (v `div` a) b ltac:(lia)).
  split; [by rewrite Z.div_div by lia|]. split; [done|]. split; [done|]. nia.
Qed.

Lemma version_text_inj (a1 b1 c1 a2 b2 c2 : Z) :
  (0 ≤ a1)%Z → (0 ≤ b1)%Z → (0 ≤ c1)%Z →
  (0 ≤ a2)%Z → (0 ≤ b2)%Z → (0 ≤ c2)%Z →
  pretty a1 +:+ "." +:+ pretty b1
    +:+ (if decide (c1 ≠ 0%Z) then "." +:+ pretty c1 else "")
  = pretty a2 +:+ "." +:+ pretty b2
    +:+ (if decide (c2 ≠ 0%Z) then "." +:+ pretty c2 else "") →
  a1 = a2 ∧ b1 = b2 ∧ c1 = c2.
Proof.
  intros Ha1 Hb1 Hc1 Ha2 Hb2 Hc2 Heq.
  assert (∀ z, (0 ≤ z)%Z → lacks "." (pretty z) = true) as Hdot.
  { intros z Hz. by apply digits_lack, pretty_Z_digits. }
  apply split_first_sep in Heq as [Ha%(inj pretty) Heq]; [|by apply Hdot..].
  split; [done|].
  destruct (decide (c1 ≠ 0%Z)) as [Hn1|Hz1], (decide (c2 ≠ 0%Z)) as [Hn2|Hz2].
  - apply split_first_sep in Heq as [Hb%(inj pretty) Hc%(inj pretty)];
      [done|by apply Hdot..].
  - exfalso. rewrite string_app_nil_r in Heq.
    pose proof (Hdot b2 Hb2) as Hl. rewrite <-Heq in Hl.
    apply lacks_app in Hl as [_ Hl].
    change (lacks "." (String "." (pretty c1)) = true) in Hl.
    by rewrite lacks_cons_eq in Hl.
  - exfalso. rewrite string_app_nil_r in Heq.
    pose proof (Hdot b1 Hb1) as Hl. rewrite Heq in Hl.
    apply lacks_app in Hl as [_ Hl].
    change (lacks "." (String "." (pretty c2)) = true) in Hl.
    by rewrite lacks_cons_eq in Hl.
  - rewrite !string_app_nil_r in Heq. apply (inj pretty) in Heq.
    split; [done|]. apply dec_stable in Hz1, Hz2. congruence.
Qed.

(** X6: a CUDA version number [1000 * major + 10 * minor + patch] is
    written as major.minor, followed by .patch when the patch digit is not
    zero. *)
Theorem printCudaStyleVersion_fields (major minor patch : Z) :
  (0 ≤ major)%Z → (0 ≤ minor < 100)%Z → (0 ≤ patch < 10)%Z →
  printCudaStyleVersion (1000 * major + 10 * minor + patch)
  = pretty major +:+ "." +:+ pretty minor
    +:+ (if decide (patch = 0%Z) then "" else "." +:+ pretty patch).
Proof.
  intros HM Hm Hp. unfold printCudaStyleVersion.
  destruct (quot_rem_parts (1000 * major + 10 * minor + patch) 10 100)
    as (Hq & Hr1 & Hr2 & Hsum); [lia..|].
  change (10 * 100)%Z with 1000%Z in *.
  assert (Z.rem (1000 * major + 10 * minor + patch) 10 = patch) as -> by lia.
  assert (Z.rem (Z.quot (1000 * major + 10 * minor + patch) 10) 100 = minor)
    as -> by lia.
  assert (Z.quot (1000 * major + 10 * minor + patch) 1000 = major) as -> by lia.
  by repeat case_decide.
Qed.

(** X7: a cuDNN version number [1000 * major + 100 * minor + patch] is
    written as major.minor, followed by .patch when the patch level is not
    zero. *)
Theorem printCudnnStyleVersion_fields (major minor patch : Z) :
  (0 ≤ major)%Z → (0 ≤ minor < 10)%Z → (0 ≤ patch < 100)%Z →
  printCudnnStyleVersion (1000 * major + 100 * minor + patch)
  = pretty major +:+ "." +:+ pretty minor
    +:+ (if decide (patch = 0%Z) then "" else "." +:+ pretty patch).
Proof.
  intros HM Hm Hp. unfold printCudnnStyleVersion.
  destruct (quot_rem_parts (1000 * major + 100 * minor + patch) 100 10)
    as (Hq & Hr1 & Hr2 & Hsum); [lia..|].
  change (100 * 10)%Z with 1000%Z in *.
  assert (Z.rem (1000 * major + 100 * minor + patch) 100 = patch) as -> by lia.
  assert (Z.rem (Z.quot (1000 * major + 100 * minor + patch) 100) 10 = minor)
    as -> by lia.
  assert (Z.quot (1000 * major + 100 * minor + patch) 1000 = major) as -> by lia.
  by repeat case_decide.
Qed.

(** X8: two different version numbers (not negative) are never written as
    the same CUDA-style text. *)
Theorem printCudaStyleVersion_inj (v1 v2 : Z) :
  (0 ≤ v1)%Z → (0 ≤ v2)%Z →
  printCudaStyleVersion v1 = printCudaStyleVersion v2 → v1 = v2.
Proof.
  intros H1 H2 Heq. unfold printCudaStyleVersion in Heq.
  destruct (quot_rem_parts v1 10 100) as (? & ? & ? & Hv1); [lia..|].
  destruct (quot_rem_parts v2 10 100) as (? & ? & ? & Hv2); [lia..|].
  change (10 * 100)%Z with 1000%Z in *.
  apply version_text_inj in Heq as (Ha & Hb & Hc); lia.
Qed.

(** X9: two different version numbers (not negative) are never written as
    the same cuDNN-style text. *)
Theorem printCudnnStyleVersion_inj (v1 v2 : Z) :
  (0 ≤ v1)%Z → (0 ≤ v2)%Z →
  printCudnnStyleVersion v1 = printCudnnStyleVersion v2 → v1 = v2.
Proof.
  intros H1 H2 Heq. unfold printCudnnStyleVersion in Heq.
  destruct (quot_rem_parts v1 100 10) as (? & ? & ? & Hv1); [lia..|].
  destruct (quot_rem_parts v2 100 10) as (? & ? & ? & Hv2); [lia..|].
  change (100 * 10)%Z with 1000%Z in *.
  apply version_text_inj in Heq as (Ha & Hb & Hc); lia.
Qed.

Lemma printCudaStyleVersion_fields_witness :
  printCudaStyleVersion 11030 = "11.3" ∧ printCudaStyleVersion 9021 = "9.2.1".
Proof.
  split.
  - apply (printCudaStyleVersion_fields 11 3 0); lia.
  - apply (printCudaStyleVersion_fields 9 2 1); lia.
Defined.

Lemma printCudnnStyleVersion_fields_witness :
  printCudnnStyleVersion 8005 = "8.0.5" ∧ printCudnnStyleVersion 7600 = "7.6".
Proof.
  split.
  - apply (printCudnnStyleVersion_fields 8 0 5); lia.
  - apply (printCudnnStyleVersion_fields 7 6 0); lia.
Defined.

Lemma printCudaStyleVersion_inj_witness : 11030%Z = 11030%Z.
Proof.
  apply (printCudaStyleVersion_inj 11030 11030); [lia|lia|reflexivity].
Defined.

Lemma printCudnnStyleVersion_inj_witness : 8005%Z = 8005%Z.
Proof.
  apply (printCudnnStyleVersion_inj 8005 8005); [lia|lia|reflexivity].
Defined.
End versions.

(** ** What engine construction registers *)

Section registration.
Variable E : Env.

Lemma mangled_fst l : (mangled E l).*1 = mangled_names E l.
Proof. unfold mangled, mangled_names. by rewrite <-list_fmap_compose. Qed.

Lemma mangled_lookup_None l k :
  (list_to_map (mangled E l) : gmap string addr) !! k = None
  ↔ k ∉ mangled_names E l.
Proof. by rewrite <-not_elem_of_list_to_map, mangled_fst. Qed.

Lemma defineEach_iff kvs (JD JD' : gmap string addr) :
  defineEach E JD kvs = Some JD' ↔
  NoDup (mangled_names E kvs)
  ∧ (∀ k, k ∈ mangled_names E kvs → JD !! k = None)
  ∧ JD' = JD ∪ list_to_map (mangled E kvs).
Proof.
  revert JD. induction kvs as [|kv kvs IH]; intros JD.
  { simpl. rewrite (right_id_L ∅ (∪)). split.
    - intros [= <-]. split; [constructor|]. split; [|done].
      by intros k ?%elem_of_nil.
    - by intros (_ & _ & ->). }
  change (mangled_names E (kv :: kvs))
    with (Mangle E kv.1 :: mangled_names E kvs).
  change (list_to_map (mangled E (kv :: kvs)) : gmap string addr)
    with (<[Mangle E kv.1 := kv.2]>
            (list_to_map (mangled E kvs)) : gmap string addr).
  cbn [defineEach]. rewrite NoDup_cons. split.
  - destruct (JITDylib.define JD _) as [JD1|] eqn:Hdef; simpl; [|done].
    apply define_Some in Hdef as [Hdisj ->].
    apply map_disjoint_singleton_r in Hdisj.
    intros (Hnd & Hfree & ->)%IH.
    assert (Mangle E kv.1 ∉ mangled_names E kvs) as Hnotin.
    { intros Hin. specialize (Hfree _ Hin).
      apply lookup_union_None in Hfree as [_ Hs].
      by rewrite lookup_singleton_eq in Hs. }
    split; [done|]. split.
    + intros k [->|Hin]%elem_of_cons; [done|].
      specialize (Hfree _ Hin). by apply lookup_union_None in Hfree as [? _].
    + by rewrite <-(assoc_L (∪)), <-insert_union_singleton_l.
  - intros ([Hnotin Hnd] & Hfree & ->).
    assert (JD !! Mangle E kv.1 = None) as Hkv.
    { apply Hfree. by left. }
    unfold JITDylib.define. rewrite decide_True
      by (by apply map_disjoint_singleton_r). simpl.
    apply IH. split; [done|]. split.
    + intros k Hin. apply lookup_union_None. split.
      * apply Hfree. by right.
      * apply lookup_singleton_ne. intros Heq. apply Hnotin. by rewrite Heq.
    + by rewrite <-(assoc_L (∪)), <-insert_union_singleton_l.
Qed.

Lemma registerIntrinsics_iff JD intrinsics :
  registerIntrinsics E ∅ ∅ = Some (JD, intrinsics) ↔
  registration_clash_free E ∧ JD = registered E
  ∧ intrinsics = list_to_set (getIntrinsicSymbols E).*1.
Proof.
  unfold registerIntrinsics, registration_clash_free, registered.
  rewrite static_loop, !(left_id_L ∅ (∪)), (right_id_L ∅ (∪)).
  assert (∀ X : gmap string addr, JITDylib.define ∅ X = Some X) as Hd.
  { intros X. apply define_Some. split; [apply map_disjoint_empty_l|].
    by rewrite (left_id_L ∅ (∪)). }
  rewrite Hd. simpl. clear Hd.
  set (S := list_to_map (mangled E (getIntrinsicSymbols E)) : gmap string addr).
  rewrite NoDup_app. setoid_rewrite elem_of_app.
  setoid_rewrite list_elem_of_singleton.
  split.
  - destruct (defineEach E S _) as [JD2|] eqn:Heach; simpl; [|done].
    apply defineEach_iff in Heach as (Hnd & Hfree & ->).
    destruct (JITDylib.define _ _) as [JD3|] eqn:Hdef; simpl; [|done].
    apply define_Some in Hdef as [Hdisj ->]. intros [= <- <-].
    apply map_disjoint_singleton_r, lookup_union_None in Hdisj as [HdS HdR].
    apply mangled_lookup_None in HdR.
    split; [|done]. split.
    + split; [done|]. split; [|apply NoDup_singleton].
      intros k Hk ->. done.
    + intros k [Hk| ->]; apply mangled_lookup_None; [by apply Hfree|done].
  - intros ([(Hnd & Hdp & _) Hfree] & -> & ->).
    assert (defineEach E S (getNNCFunctionRegistry E)
            = Some (S ∪ list_to_map (mangled E (getNNCFunctionRegistry E))))
      as ->.
    { apply defineEach_iff. split; [done|]. split; [|done].
      intros k Hk. apply mangled_lookup_None. apply Hfree. by left. }
    simpl. unfold JITDylib.define. rewrite decide_True; [done|].
    apply map_disjoint_singleton_r, lookup_union_None. split.
    + apply mangled_lookup_None. apply Hfree. by right.
    + apply mangled_lookup_None. intros Hin. by apply (Hdp _ Hin).
Qed.

Lemma create_iff triple cpu attrs jit :
  PytorchLLVMJIT.create E triple cpu attrs = Some jit ↔
  createTargetMachine E (makeTargetMachineBuilder E triple cpu attrs) = true
  ∧ registration_clash_free E
  ∧ jit = PytorchLLVMJIT.mk
            (PytorchLLVMJITImpl.mk
               (makeTargetMachineBuilder E triple cpu attrs)
               (registered E)
               (list_to_set (getIntrinsicSymbols E).*1))
            ∅.
Proof.
  unfold PytorchLLVMJIT.create, PytorchLLVMJITImpl.create.
  destruct (createTargetMachine E _); simpl;
    [|split; [done|by intros [? _]]].
  destruct (registerIntrinsics E ∅ ∅) as [[JD ins]|] eqn:Hreg; simpl.
  - apply registerIntrinsics_iff in Hreg as (Hfree & -> & ->).
    split; [by intros [= <-]|]. by intros (_ & _ & ->).
  - split; [done|]. intros (_ & Hfree & _).
    assert (registerIntrinsics E ∅ ∅
            = Some (registered E, list_to_set (getIntrinsicSymbols E).*1))
      as Hr by (by apply registerIntrinsics_iff).
    by rewrite Hr in Hreg.
Qed.
End registration.

Section registration_properties.

Lemma registered_registry E name a :
  registration_clash_free E → (name, a) ∈ getNNCFunctionRegistry E →
  registered E !! Mangle E name = Some a.
Proof.
  intros [Hnd Hfree] Hin. unfold registered.
  apply NoDup_app in Hnd as (Hnd & Hdp & _).
  assert (Mangle E name ∈ mangled_names E (getNNCFunctionRegistry E)) as Hk.
  { apply list_elem_of_fmap. by exists (name, a). }
  apply lookup_union_Some_l. rewrite lookup_union_r.
  - apply elem_of_list_to_map_1; [by rewrite mangled_fst|].
    apply list_elem_of_fmap. by exists (name, a).
  - apply mangled_lookup_None, Hfree, elem_of_app. by left.
Qed.

Lemma registered_DispatchParallel E :
  registration_clash_free E →
  registered E !! Mangle E "DispatchParallel" = Some (DispatchParallel E).
Proof.
  intros [Hnd Hfree]. unfold registered.
  apply NoDup_app in Hnd as (_ & Hdp & _).
  rewrite lookup_union_r; [apply lookup_singleton_eq|].
  apply lookup_union_None. split; apply mangled_lookup_None.
  - apply Hfree, elem_of_app. right. by left.
  - intros Hin. apply (Hdp _ Hin). by left.
Qed.

(** X10: an engine is built exactly when LLVM accepts the target and no
    name is registered by two separate definitions (the registry's names and
    "DispatchParallel", mangled, are pairwise distinct and none is a static
    intrinsic's). *)
Theorem create_succeeds_iff (E : Env) (triple cpu attrs : option string) :
  is_Some (PytorchLLVMJIT.create E triple cpu attrs) ↔
  createTargetMachine E (makeTargetMachineBuilder E triple cpu attrs) = true
  ∧ registration_clash_free E.
Proof.
  split.
  - intros [jit Hjit]. apply create_iff in Hjit as (? & ? & _). done.
  - intros [Htm Hfree]. eexists. apply create_iff. done.
Qed.

(** X11: on a constructed engine every function of the external registry
    resolves to its registered address and "DispatchParallel" to its own,
    although [hasSymbol] is false for each of them that is not a static
    intrinsic. *)
Theorem findSymbol_registry
    (E : Env) (triple cpu attrs : option string) (jit : PytorchLLVMJIT.t) :
  PytorchLLVMJIT.create E triple cpu attrs = Some jit →
  (∀ name a, (name, a) ∈ getNNCFunctionRegistry E →
             PytorchLLVMJIT.findSymbol E jit name = Some a)
  ∧ PytorchLLVMJIT.findSymbol E jit "DispatchParallel"
    = Some (DispatchParallel E)
  ∧ (∀ name, name ∉ (getIntrinsicSymbols E).*1 →
             PytorchLLVMJIT.hasSymbol jit name = false).
Proof.
  intros (_ & Hfree & ->)%create_iff.
  unfold PytorchLLVMJIT.findSymbol, PytorchLLVMJITImpl.findSymbol,
    PytorchLLVMJIT.hasSymbol, PytorchLLVMJITImpl.hasSymbol. simpl.
  split; [|split].
  - intros name a Hin. by rewrite (registered_registry E name a).
  - by rewrite registered_DispatchParallel.
  - intros name Hname. by rewrite bool_decide_eq_false, elem_of_list_to_set.
Qed.

(** X12: on a constructed engine a name that was not registered (not a
    static intrinsic, not in the registry, not "DispatchParallel") resolves
    to whatever the hosting process has under its mangled name, and fails
    when the process has nothing. *)
Theorem findSymbol_unregistered
    (E : Env) (triple cpu attrs : option string) (jit : PytorchLLVMJIT.t)
    (name : string) :
  PytorchLLVMJIT.create E triple cpu attrs = Some jit →
  Mangle E name ∉ mangled_names E (getIntrinsicSymbols E) →
  Mangle E name ∉ mangled_names E (getNNCFunctionRegistry E) →
  Mangle E name ≠ Mangle E "DispatchParallel" →
  PytorchLLVMJIT.findSymbol E jit name = processSymbol E (Mangle E name).
Proof.
  intros (_ & _ & ->)%create_iff HS HR HD.
  unfold PytorchLLVMJIT.findSymbol, PytorchLLVMJITImpl.findSymbol. simpl.
  assert (registered E !! Mangle E name = None) as ->; [|done].
  unfold registered. rewrite !lookup_union_None.
  split; [split|]; [by apply mangled_lookup_None..|].
  by apply lookup_singleton_ne.
Qed.

Lemma create_succeeds_iff_witness :
  is_Some (PytorchLLVMJIT.create Host.linux None None None)
  ∧ ¬ is_Some (PytorchLLVMJIT.create Host.linux_clash None None None).
Proof.
  split.
  - apply (proj2 (create_succeeds_iff Host.linux None None None)).
    split; [reflexivity|]. split.
    + vm_compute. repeat constructor; set_solver.
    + intros k Hk Hin. vm_compute in Hk, Hin. set_solver.
  - intros Hs.
    apply (proj1 (create_succeeds_iff Host.linux_clash None None None)) in Hs.
    destruct Hs as [_ [_ Hfree]]. apply (Hfree "sinf"); vm_compute; set_solver.
Defined.

Lemma findSymbol_registry_witness :
  PytorchLLVMJIT.findSymbol Host.linux (Host.engine None) "nnc_aten_conv2d"
  = Some 2001%N.
Proof.
  apply (proj1 (findSymbol_registry Host.linux None None None
                  (Host.engine None) ltac:(vm_compute; reflexivity))
           "nnc_aten_conv2d" 2001%N).
  vm_compute. by left.
Defined.

Lemma findSymbol_unregistered_witness :
  PytorchLLVMJIT.findSymbol Host.linux (Host.engine None) "malloc"
  = Some 7001%N.
Proof.
  apply (findSymbol_unregistered Host.linux None None None (Host.engine None)
           "malloc").
  - vm_compute. reflexivity.
  - vm_compute. set_solver.
  - vm_compute. set_solver.
  - discriminate.
Defined.
End registration_properties.

(** ** More on the instance cache *)

Section cache_properties.
Import PytorchLLVMJITCache.

Lemma getCacheKey_flat (triple cpu attrs : option string) :
  getCacheKey triple cpu attrs
  = "triple:" +:+ default "" triple +:+ "cpu:" +:+ default "" cpu
    +:+ "attrs:" +:+ default "" attrs.
Proof.
  unfold getCacheKey. rewrite !string_app_assoc. by destruct triple, cpu, attrs.
Qed.

Lemma get_miss E st d p st' :
  get E st d = Some (p, st') → jit_cache_ st !! key_of d = None →
  ∃ jit, PytorchLLVMJIT.create E (triple d) (cpu d) (attrs d) = Some jit
         ∧ (p ∉ dom (heap st))
         ∧ heap st' = <[p := jit]> (heap st)
         ∧ jit_cache_ st' = <[key_of d := p]> (jit_cache_ st).
Proof.
  unfold get, getPytorchLLVMJITInstance, make_unique, key_of.
  intros Hget Hmiss. rewrite Hmiss in Hget.
  destruct (PytorchLLVMJIT.create E _ _ _) as [jit|]; simpl in Hget; [|done].
  injection Hget as <- <-. simpl. exists jit.
  split; [done|]. split; [apply is_fresh|done].
Qed.

Lemma get_hit E st d p st' q :
  get E st d = Some (p, st') → jit_cache_ st !! key_of d = Some q →
  p = q ∧ st' = st.
Proof.
  unfold get, getPytorchLLVMJITInstance, key_of.
  intros Hget Hhit. rewrite Hhit in Hget. by injection Hget as <- <-.
Qed.

(** X13: a [get] that returned an engine, asked again with the same
    descriptor, returns the same engine and leaves the cache as it is. *)
Theorem get_again (E : Env) (st st' : state) (d : TargetDescriptor) (p : addr) :
  get E st d = Some (p, st') → get E st' d = Some (p, st').
Proof.
  intros Hget.
  assert (jit_cache_ st' !! key_of d = Some p) as Hp.
  { destruct (jit_cache_ st !! key_of d) as [q|] eqn:Hq.
    - by destruct (get_hit _ _ _ _ _ _ Hget Hq) as [-> ->].
    - destruct (get_miss _ _ _ _ _ Hget Hq) as (jit & _ & _ & _ & ->).
      apply lookup_insert_eq. }
  unfold get, getPytorchLLVMJITInstance. unfold key_of in Hp. by rewrite Hp.
Qed.

Lemma get_again_witness :
  get Host.linux
    (mk {[ 0%N := Host.engine None ]} {[ "triple:cpu:attrs:" := 0%N ]})
    (mkTarget None None None)
  = Some (0%N,
          mk {[ 0%N := Host.engine None ]} {[ "triple:cpu:attrs:" := 0%N ]}).
Proof.
  apply (get_again Host.linux init). vm_compute. reflexivity.
Defined.

Lemma gets_sizes E ds st ps st' :
  cache_sizes st → gets E st ds = Some (ps, st') →
  cache_sizes st'
  ∧ dom (jit_cache_ st') = dom (jit_cache_ st) ∪ list_to_set (key_of <$> ds)
  ∧ length ps = length ds.
Proof.
  revert st ps st'. induction ds as [|d ds IH]; intros st ps st' Hsz; simpl.
  { intros [= <- <-]. split; [done|]. split; [|done].
    by rewrite (right_id_L ∅ (∪)). }
  destruct (get E st d) as [[p st1]|] eqn:Hget; simpl; [|done].
  destruct (gets E st1 ds) as [[ps1 st2]|] eqn:Hgets; simpl; [|done].
  intros [= <- <-].
  assert (cache_sizes st1
          ∧ dom (jit_cache_ st1) = dom (jit_cache_ st) ∪ {[ key_of d ]})
    as [Hsz1 Hdom1].
  { destruct (jit_cache_ st !! key_of d) as [q|] eqn:Hq.
    - destruct (get_hit _ _ _ _ _ _ Hget Hq) as [-> ->]. split; [done|].
      apply elem_of_dom_2 in Hq. set_solver.
    - destruct (get_miss _ _ _ _ _ Hget Hq)
        as (jit & _ & Hfresh & Hheap & Hcache).
      split.
      + unfold cache_sizes. rewrite Hheap, Hcache.
        rewrite !map_size_insert_None; [by rewrite Hsz|done|].
        by apply not_elem_of_dom.
      + rewrite Hcache, dom_insert_L. set_solver. }
  destruct (IH _ _ _ Hsz1 Hgets) as (Hsz2 & Hdom2 & Hlen).
  split; [done|]. split; [|simpl; by rewrite Hlen].
  rewrite Hdom2, Hdom1. set_solver.
Qed.

(** X14: after a run of [get]s on the empty cache, the engines in storage
    are as many as the distinct keys asked for, one cache entry each. *)
Theorem gets_one_engine_per_key
    (E : Env) (ds : list TargetDescriptor) (ps : list addr) (st : state) :
  gets E init ds = Some (ps, st) →
  size (heap st) = size (C:=gset string) (list_to_set (key_of <$> ds))
  ∧ dom (jit_cache_ st) = list_to_set (key_of <$> ds)
  ∧ length ps = length ds.
Proof.
  intros Hgets.
  destruct (gets_sizes E ds init ps st) as (Hsz & Hdom & Hlen); [done..|].
  simpl in Hdom. rewrite dom_empty_L, (left_id_L ∅ (∪)) in Hdom.
  split; [|done]. rewrite Hsz, <-Hdom. by rewrite size_dom.
Qed.

Lemma gets_one_engine_per_key_witness :
  size ({[ 0%N := Host.engine None; 1%N := Host.engine (Some "aarch64") ]}
          : gmap addr PytorchLLVMJIT.t)
  = size (C:=gset string)
      (list_to_set
         (key_of <$> [mkTarget None None None;
                      mkTarget (Some "aarch64") None None;
                      mkTarget None (Some "") None])).
Proof.
  refine (proj1 (gets_one_engine_per_key Host.linux
           [mkTarget None None None; mkTarget (Some "aarch64") None None;
            mkTarget None (Some "") None]
           [0%N; 1%N; 0%N]
           (mk {[ 0%N := Host.engine None;
                  1%N := Host.engine (Some "aarch64") ]}
               {[ "triple:cpu:attrs:" := 0%N;
                  "triple:aarch64cpu:attrs:" := 1%N ]})
           _)).
  vm_compute. reflexivity.
Defined.
End cache_properties.

Section cache_engines.
Import PytorchLLVMJITCache.

Lemma get_heap_grows E st d p st' :
  cache_inv st → get E st d = Some (p, st') → heap st ⊆ heap st'.
Proof.
  intros Hinv Hget. destruct (jit_cache_ st !! key_of d) as [q|] eqn:Hq.
  - by destruct (get_hit _ _ _ _ _ _ Hget Hq) as [-> ->].
  - destruct (get_miss _ _ _ _ _ Hget Hq) as (jit & _ & Hfresh & -> & _).
    apply insert_subseteq. by apply not_elem_of_dom.
Qed.

Lemma gets_heap_grows E ds st ps st' :
  cache_inv st → gets E st ds = Some (ps, st') → heap st ⊆ heap st'.
Proof.
  revert st ps st'. induction ds as [|d ds IH]; intros st ps st' Hinv; simpl.
  { by intros [= <- <-]. }
  destruct (get E st d) as [[p st1]|] eqn:Hget; simpl; [|done].
  destruct (gets E st1 ds) as [[ps1 st2]|] eqn:Hgets; simpl; [|done].
  intros [= <- <-].
  destruct (get_inv _ _ _ _ _ Hinv Hget) as (Hinv1 & _).
  etrans; [by eapply get_heap_grows|by eapply IH].
Qed.

Lemma get_other_key E st d p st' k :
  get E st d = Some (p, st') → k ≠ key_of d →
  jit_cache_ st' !! k = jit_cache_ st !! k.
Proof.
  intros Hget Hk. destruct (jit_cache_ st !! key_of d) as [q|] eqn:Hq.
  - by destruct (get_hit _ _ _ _ _ _ Hget Hq) as [-> ->].
  - destruct (get_miss _ _ _ _ _ Hget Hq) as (jit & _ & _ & _ & ->).
    by rewrite lookup_insert_ne.
Qed.

Lemma gets_first_builds E ds st ps st' i d p :
  cache_inv st → gets E st ds = Some (ps, st') →
  jit_cache_ st !! key_of d = None →
  ds !! i = Some d → ps !! i = Some p →
  (∀ j d', j < i → ds !! j = Some d' → key_of d' ≠ key_of d) →
  heap st' !! p = PytorchLLVMJIT.create E (triple d) (cpu d) (attrs d)
  ∧ is_Some (heap st' !! p).
Proof.
  revert st ps st' i.
  induction ds as [|d0 ds IH]; intros st ps st' i Hinv; simpl; [done|].
  destruct (get E st d0) as [[p0 st1]|] eqn:Hget; simpl; [|done].
  destruct (gets E st1 ds) as [[ps1 st2]|] eqn:Hgets; simpl; [|done].
  intros [= <- <-] Hmiss Hd Hp Hfirst.
  destruct (get_inv _ _ _ _ _ Hinv Hget) as (Hinv1 & _).
  destruct i as [|i]; simpl in Hd, Hp.
  - injection Hd as ->. injection Hp as ->.
    destruct (get_miss _ _ _ _ _ Hget Hmiss) as (jit & Hjit & _ & Hheap & _).
    assert (heap st2 !! p = Some jit) as Hp.
    { eapply lookup_weaken; [|by eapply gets_heap_grows].
      rewrite Hheap. apply lookup_insert_eq. }
    rewrite Hp, Hjit. eauto.
  - apply (IH st1 ps1 st2 i); [done|done| |done|done|].
    + rewrite (get_other_key _ _ _ _ _ _ Hget); [done|].
      intros Heq. apply (Hfirst 0 d0); [lia|done|done].
    + intros j d' Hj. apply (Hfirst (S j)). lia.
Qed.

(** X15: in a run of [get]s on the empty cache, the engine a [get]
    returns is the one built from the first descriptor of the run that has
    the same key, which need not be the descriptor of this [get]. *)
Theorem gets_engine_of_first_descriptor
    (E : Env) (ds : list TargetDescriptor) (ps : list addr) (st : state)
    (i j : nat) (di dj : TargetDescriptor) (p : addr) :
  gets E init ds = Some (ps, st) →
  ds !! i = Some di →
  (∀ k d, k < i → ds !! k = Some d → key_of d ≠ key_of di) →
  ds !! j = Some dj → key_of dj = key_of di → ps !! j = Some p →
  heap st !! p = PytorchLLVMJIT.create E (triple di) (cpu di) (attrs di)
  ∧ is_Some (heap st !! p).
Proof.
  intros Hgets Hdi Hfirst Hdj Hkey Hpj.
  destruct (gets_inv _ _ _ _ _ cache_inv_init Hgets) as (_ & _ & Hps).
  assert (is_Some (ps !! i)) as [pi Hpi].
  { apply lookup_lt_is_Some. apply lookup_lt_Some in Hdi.
    destruct (gets_sizes E ds init ps st) as (_ & _ & ->); done. }
  pose proof (Hps _ _ _ Hdi Hpi) as Hci.
  pose proof (Hps _ _ _ Hdj Hpj) as Hcj. rewrite Hkey, Hci in Hcj.
  injection Hcj as <-.
  by apply (gets_first_builds E ds init ps st i di pi cache_inv_init).
Qed.

Lemma gets_engine_of_first_descriptor_witness :
  ({[ 0%N := Host.engine None ]} : gmap addr PytorchLLVMJIT.t) !! 0%N
  = PytorchLLVMJIT.create Host.linux None None None.
Proof.
  refine (proj1 (gets_engine_of_first_descriptor Host.linux
           [mkTarget None None None; mkTarget None (Some "") None]
           [0%N; 0%N]
           (mk {[ 0%N := Host.engine None ]} {[ "triple:cpu:attrs:" := 0%N ]})
           0 1 (mkTarget None None None) (mkTarget None (Some "") None) 0%N
           _ _ _ _ _ _)).
  - vm_compute. reflexivity.
  - reflexivity.
  - intros k d Hk. lia.
  - reflexivity.
  - reflexivity.
  - reflexivity.
Defined.

Lemma labelled_split (label t1 t2 r1 r2 : string) :
  lacks ":" label = true → lacks ":" t1 = true → lacks ":" t2 = true →
  t1 +:+ (label +:+ ":") +:+ r1 = t2 +:+ (label +:+ ":") +:+ r2 →
  t1 = t2 ∧ r1 = r2.
Proof.
  intros Hl H1 H2 Heq.
  rewrite !(string_app_assoc label ":") in Heq.
  rewrite <-!(string_app_assoc _ label) in Heq.
  apply split_first_sep in Heq as [Ht Hr]; [|by apply lacks_app..].
  by apply string_app_inj_r in Ht.
Qed.

(** X16: when the triples and the cpus contain no colon, two descriptors
    with the same cache key have the same triple, cpu and attrs, an absent
    field counting as an empty one. *)
Theorem getCacheKey_inj (triple1 cpu1 attrs1 triple2 cpu2 attrs2 : option string) :
  lacks ":" (default "" triple1) = true → lacks ":" (default "" cpu1) = true →
  lacks ":" (default "" triple2) = true → lacks ":" (default "" cpu2) = true →
  getCacheKey triple1 cpu1 attrs1 = getCacheKey triple2 cpu2 attrs2 →
  default "" triple1 = default "" triple2
  ∧ default "" cpu1 = default "" cpu2
  ∧ default "" attrs1 = default "" attrs2.
Proof.
  intros Ht1 Hc1 Ht2 Hc2. rewrite !getCacheKey_flat.
  generalize dependent (default "" triple1). intros t1 Ht1.
  generalize dependent (default "" triple2). intros t2 Ht2.
  generalize dependent (default "" cpu1). intros c1 Hc1.
  generalize dependent (default "" cpu2). intros c2 Hc2.
  generalize (default "" attrs1) (default "" attrs2). intros a1 a2 Heq.
  apply (inj (String.app _)) in Heq.
  apply (labelled_split "cpu") in Heq as [Ht Heq]; [|done..].
  apply (labelled_split "attrs") in Heq as [Hc Heq]; [|done..].
  done.
Qed.

Lemma getCacheKey_inj_witness :
  default "" (Some "x86_64") = default "" (Some "x86_64")
  ∧ default "" (None : option string) = default "" (Some "")
  ∧ default "" (Some "+avx:1") = default "" (Some "+avx:1").
Proof.
  apply (getCacheKey_inj (Some "x86_64") None (Some "+avx:1")
           (Some "x86_64") (Some "") (Some "+avx:1"));
    vm_compute; reflexivity.
Defined.
End cache_engines.

Section cache_identity.
Import PytorchLLVMJITCache.

(** X17: among the [get]s of a run whose descriptors have no colon in
    triple and cpu, two that return the same engine have the same triple, cpu
    and attrs, an absent field counting as an empty one. *)
Theorem gets_same_engine_same_fields
    (E : Env) (ds : list TargetDescriptor) (ps : list addr) (st : state)
    (i j : nat) (di dj : TargetDescriptor) (p : addr) :
  gets E init ds = Some (ps, st) →
  ds !! i = Some di → ds !! j = Some dj →
  ps !! i = Some p → ps !! j = Some p →
  lacks ":" (default "" (triple di)) = true →
  lacks ":" (default "" (cpu di)) = true →
  lacks ":" (default "" (triple dj)) = true →
  lacks ":" (default "" (cpu dj)) = true →
  default "" (triple di) = default "" (triple dj)
  ∧ default "" (cpu di) = default "" (cpu dj)
  ∧ default "" (attrs di) = default "" (attrs dj).
Proof.
  intros Hgets Hdi Hdj Hpi Hpj Hti Hci Htj Hcj.
  destruct (gets_inv _ _ _ _ _ cache_inv_init Hgets) as ([_ Hinj] & _ & Hps).
  apply getCacheKey_inj; [done..|].
  apply (Hinj _ _ p); by eapply Hps.
Qed.

Lemma gets_same_engine_same_fields_witness :
  default "" (None : option string) = default "" (None : option string)
  ∧ default "" (None : option string) = default "" (Some "")
  ∧ default "" (None : option string) = default "" (None : option string).
Proof.
  refine (gets_same_engine_same_fields Host.linux
            [mkTarget None None None; mkTarget None (Some "") None]
            [0%N; 0%N]
            (mk {[ 0%N := Host.engine None ]} {[ "triple:cpu:attrs:" := 0%N ]})
            0 1 (mkTarget None None None) (mkTarget None (Some "") None) 0%N
            _ _ _ _ _ _ _ _ _); vm_compute; reflexivity.
Defined.
End cache_identity.

(** ** More on unique names *)

Section suffixed_names.
Import PytorchLLVMJIT.

(** X18: in any sequence of calls on one engine, two different calls that
    are not the first with their base return different names, whatever the
    two bases are: a name with a counter suffix is never handed out twice. *)
Theorem getUniqueFunctionName_suffixed_distinct
    (names : list string) (i j : nat) (bi bj ri rj : string) :
  i ≠ j →
  names !! i = Some bi → names !! j = Some bj →
  0 < occurrences bi (take i names) → 0 < occurrences bj (take j names) →
  (calls ∅ names).1 !! i = Some ri → (calls ∅ names).1 !! j = Some rj →
  ri ≠ rj.
Proof.
  intros Hij Hi Hj Hni Hnj Hri Hrj Heq.
  rewrite (calls_lookup _ _ _ Hi) in Hri.
  rewrite (calls_lookup _ _ _ Hj) in Hrj.
  injection Hri as <-. injection Hrj as <-.
  destruct (occurrences bi (take i names)) as [|ni] eqn:Hoi; [lia|].
  destruct (occurrences bj (take j names)) as [|nj] eqn:Hoj; [lia|].
  unfold returned_name in Heq.
  apply split_last_sep in Heq as [-> Hn%(inj pretty)];
    [|apply digits_lack; [done|apply pretty_Z_digits; lia]..].
  destruct (decide (i < j)).
  - pose proof (occurrences_take_lt names i j bj ltac:(lia) Hi). lia.
  - pose proof (occurrences_take_lt names j i bj ltac:(lia) Hj). lia.
Qed.

Lemma getUniqueFunctionName_suffixed_distinct_witness :
  "k_2" ≠ "k_1_2".
Proof.
  apply (getUniqueFunctionName_suffixed_distinct
           ["k"; "k_1"; "k"; "k_1"] 2 3 "k" "k_1" "k_2" "k_1_2");
    try (vm_compute; reflexivity); vm_compute; lia.
Defined.
End suffixed_names.

(** ** Pointers in call arguments *)

Section call_arg_pointers.
Import CallArg.

(** X19: a cell built from a pointer gives the pointer back from
    [data()]. *)
Theorem CallArg_pointer_round_trip (ptr : Z) :
  (0 ≤ ptr < 2 ^ 64)%Z → data (ctor_ptr ptr) = ptr.
Proof.
  intros Hp. unfold data, ctor_ptr. cbn [data_].
  rewrite of_bytes_to_bytes. by apply Z.mod_small.
Qed.

Lemma CallArg_pointer_round_trip_witness :
  data (ctor_ptr 140737488355327) = 140737488355327%Z.
Proof. apply (CallArg_pointer_round_trip 140737488355327). lia. Defined.
End call_arg_pointers.
